(** * semkon: the proof-verification conversation engine

    A shallow embedding of [src/semkon/main.py] (class [Linter]) and the
    properties of its token budgeting, file disclosure and conversation loop.

    Python integers are [Z]; a Python [str] is the [string] of its UTF-8
    bytes, and [len] counts its characters; a [set] of paths is a [gset]; a
    [pathlib.Path] is the list of its components.  The reasoning
    service, the tokenizer, the file system and [format_file] are external to
    the module and are parameters of the development. *)

From Stdlib Require Import ZArith Bool Ascii String Lia.
From stdpp Require Import base decidable option list sorting sets gmap strings pretty.

Local Open Scope string_scope.
Local Open Scope list_scope.

(** ** Module constants *)

Definition MAX_FILES_REQUESTED : nat := 5.
Definition MESSAGE_ENVELOPE_TOKENS : Z := 300.
Definition MAX_CONTEXT_LENGTH : Z := 100000.

(** ** Strings *)

Definition nl : string := String (ascii_of_nat 10) EmptyString.
Definition dq : string := String (ascii_of_nat 34) EmptyString.
Definition slash : ascii := ascii_of_nat 47.

(** The bytes [10xxxxxx], which continue a character begun before them. *)
Definition is_continuation_byte (c : ascii) : bool :=
  match c with
  | Ascii _ _ _ _ _ _ b6 b7 => b7 && negb b6
  end.

(** [len(s)]: the number of characters (code points) of a text, that is, of
    the bytes that do not continue a character. *)
Fixpoint len (s : string) : nat :=
  match s with
  | EmptyString => 0
  | String c s' => (if is_continuation_byte c then 0 else 1) + len s'
  end.

(** The UTF-8 bytes of a text given by its code points: what a [string]
    holds for it. *)
Definition continuation_byte (cp : N) (i : N) : ascii :=
  Ascii (N.testbit cp i) (N.testbit cp (i + 1)) (N.testbit cp (i + 2))
    (N.testbit cp (i + 3)) (N.testbit cp (i + 4)) (N.testbit cp (i + 5))
    false true.

Definition utf8_char (cp : N) : string :=
  if (cp <? 128)%N then
    String (Ascii (N.testbit cp 0) (N.testbit cp 1) (N.testbit cp 2)
              (N.testbit cp 3) (N.testbit cp 4) (N.testbit cp 5)
              (N.testbit cp 6) false)
      EmptyString
  else if (cp <? 2048)%N then
    String (Ascii (N.testbit cp 6) (N.testbit cp 7) (N.testbit cp 8)
              (N.testbit cp 9) (N.testbit cp 10) false true true)
      (String (continuation_byte cp 0) EmptyString)
  else if (cp <? 65536)%N then
    String (Ascii (N.testbit cp 12) (N.testbit cp 13) (N.testbit cp 14)
              (N.testbit cp 15) false true true true)
      (String (continuation_byte cp 6)
         (String (continuation_byte cp 0) EmptyString))
  else
    String (Ascii (N.testbit cp 18) (N.testbit cp 19) (N.testbit cp 20)
              false true true true true)
      (String (continuation_byte cp 12)
         (String (continuation_byte cp 6)
            (String (continuation_byte cp 0) EmptyString))).

Fixpoint utf8 (cps : list N) : string :=
  match cps with
  | [] => EmptyString
  | cp :: rest => utf8_char cp +:+ utf8 rest
  end.

(** [sep.join(xs)] *)
Fixpoint join (sep : string) (xs : list string) : string :=
  match xs with
  | [] => EmptyString
  | [x] => x
  | x :: rest => x +:+ sep +:+ join sep rest
  end.

(** [s.split("/")]: never empty, one more piece than there are slashes. *)
Fixpoint split_slash (s : string) : list string :=
  match s with
  | EmptyString => [EmptyString]
  | String c s' =>
      if Ascii.eqb c slash then EmptyString :: split_slash s'
      else match split_slash s' with
           | h :: t => String c h :: t
           | [] => [String c EmptyString]
           end
  end.

(** ** Paths

    A [pathlib] path is determined by its components ([parts]); equality,
    hashing and ordering of paths are those of the component lists: [p < q]
    compares the lists of components as Python compares lists.  The files of
    the code base ([get_rel_paths]) are relative paths. *)

Abbreviation Path := (list string).

(** [posixpath.splitroot]: the root (none, one slash, or exactly two) and the
    rest. *)
Definition splitroot (p : string) : string * string :=
  match p with
  | String c1 r1 =>
      if Ascii.eqb c1 slash then
        match r1 with
        | String c2 r2 =>
            if Ascii.eqb c2 slash then
              match r2 with
              | String c3 _ =>
                  if Ascii.eqb c3 slash then ("/", r1) else ("//", r2)
              | EmptyString => ("//", r2)
              end
            else ("/", r1)
        | EmptyString => ("/", r1)
        end
      else (EmptyString, p)
  | EmptyString => (EmptyString, p)
  end.

Definition is_component (x : string) : bool :=
  negb (String.eqb x EmptyString) && negb (String.eqb x ".").

(** [Path(s)]: empty and ["."] components are dropped, a root is kept as the
    first part. *)
Definition Path_of_str (s : string) : Path :=
  let '(root, rel) := splitroot s in
  (if String.eqb root EmptyString then [] else [root])
    ++ List.filter is_component (split_slash rel).

(** [str(p)] *)
Definition str_of_Path (p : Path) : string :=
  match p with
  | [] => "."
  | r :: tail =>
      if String.prefix "/" r then r +:+ join "/" tail else join "/" p
  end.

(** [p < q] on paths: Python's comparison of the component lists, the first
    differing component decides, a proper prefix is smaller. *)
Fixpoint Path_ltb (p q : Path) : bool :=
  match p, q with
  | [], [] => false
  | [], _ :: _ => true
  | _ :: _, [] => false
  | a :: p', b :: q' =>
      if String.eqb a b then Path_ltb p' q' else String.ltb a b
  end.

(** The order [sorted] leaves its output in: no element is smaller than one
    before it. *)
Definition Path_le (p q : Path) : Prop := Path_ltb q p = false.

#[global] Instance Path_le_dec : RelDecision Path_le :=
  fun p q => decide (Path_ltb q p = false).

(** [sorted(s)] for a set [s] of paths.  The iteration order of the set does
    not matter, see [sorted_paths_any_order]. *)
Definition sorted_paths (s : gset Path) : list Path :=
  merge_sort Path_le (elements s).

(** ** File disclosure (lines 343-349 of [check_proof])

    [sorted((all_files & {Path(p) for p in files_requested}) - files_shown)
       [:MAX_FILES_REQUESTED]] *)
Definition resolve_files_requested
    (all_files : gset Path) (files_requested : list string)
    (files_shown : gset Path) : list Path :=
  take MAX_FILES_REQUESTED
    (sorted_paths
       ((all_files ∩ list_to_set (Path_of_str <$> files_requested))
          ∖ files_shown)).

(** ** Data model (lines 54-82) *)

Record PropertyLocation := {
  rel_path : Path;
  line_num : Z
}.

Inductive Correctness := correct | incorrect | unknown.

Record CorrectnessExplanation := {
  correctness : Correctness;
  explanation : string
}.

Record FilesRequested := { files_requested : list string }.

Record Failure := { msg : string }.

Record ProofCheckResult := {
  property_location : PropertyLocation;
  correctness_explanation : CorrectnessExplanation + Failure
}.

(** The two response schemas.  [data_type fmt] is the type of the [data] field
    of the schema [fmt]. *)
Inductive ResponseFormat :=
  | FullFilesExcludedResponse
  | FullFilesIncludedResponse.

Definition data_type (fmt : ResponseFormat) : Type :=
  match fmt with
  | FullFilesExcludedResponse => (FilesRequested + CorrectnessExplanation)%type
  | FullFilesIncludedResponse => CorrectnessExplanation
  end.

(** [resp_message.parsed.data], seen as the union the loop tests with
    [isinstance]. *)
Definition data {fmt : ResponseFormat} :
    data_type fmt -> FilesRequested + CorrectnessExplanation :=
  match fmt with
  | FullFilesExcludedResponse => fun d => d
  | FullFilesIncludedResponse => fun ce => inr ce
  end.

(** ** The reasoning service as the engine sees it *)

Inductive Role := user | assistant.

Record Message := { role : Role; content : string }.

Definition is_user (m : Message) : bool :=
  match role m with user => true | assistant => false end.

(** What a call of [openai_client.beta.chat.completions.parse] is given,
    besides the fixed [MODEL]. *)
Record Request := {
  req_max_completion_tokens : option Z;
  req_messages : list Message;
  req_response_format : ResponseFormat
}.

Record CompletionUsage := { completion_tokens : Z }.

(** What the loop reads of a completion: [resp.usage], and of
    [resp.choices[0].message] the fields [content] and [parsed].  A
    completion has a first choice. *)
Record ParsedChatCompletion (fmt : ResponseFormat) := {
  usage : option CompletionUsage;
  message_content : option string;
  message_parsed : option (data_type fmt)
}.
Arguments usage {fmt} _.
Arguments message_content {fmt} _.
Arguments message_parsed {fmt} _.

(** Exceptions, each with its [str(e)]. *)
Inductive exn :=
  | BadRequestError (e : string)
  | LengthFinishReasonError (e : string)
  | RuntimeError (e : string)
  | TimeoutError (e : string)
  | ValueError (e : string)
  | OtherError (e : string).

(** ** Calls, state and exceptions

    The only effect of the engine on the outside is the sequence of requests
    it sends; [World] is that sequence, oldest first.  A computation either
    raises or returns, and leaves the world it reached in both cases. *)
Definition World := list Request.

Definition M (A : Type) : Type := World -> (exn + A) * World.

Definition pure {A} (a : A) : M A := fun w => (inr a, w).

Definition raise {A} (e : exn) : M A := fun w => (inl e, w).

Definition bind {A B} (m : M A) (k : A -> M B) : M B :=
  fun w =>
    match m w with
    | (inl e, w') => (inl e, w')
    | (inr a, w') => k a w'
    end.

Notation "x <- m ;; k" := (bind m (fun x => k))
  (at level 20, m at level 99, k at level 200).
Notation "' pat <- m ;; k" :=
  (bind m (fun x => match x with pat => k end))
  (at level 20, pat pattern, m at level 99, k at level 200).

(** [x or y] on an optional integer: [None] and [0] are falsy. *)
Definition py_or (x : option Z) (y : Z) : Z :=
  match x with
  | None => y
  | Some v => if (v =? 0)%Z then y else v
  end.

(** The linter object after [__init__] (the fields the engine reads). *)
Record Linter := {
  _rel_paths : list Path;
  _property_locations : list PropertyLocation;
  _max_messages : Z;
  _exclude_full_files : bool;
  _python_deps_text : string;
  _max_tokens_total : option Z;
  _max_tokens_per_property : option Z
}.

(** The local variables of [check_proof] that its loop reads and assigns. *)
Record Locals := {
  files_shown : gset Path;
  input_tokens_in_messages : Z;
  input_tokens_sent : Z;
  completion_tokens_used : Z;
  messages : list Message
}.

(** The result of one pass through the body of the [for] loop of
    [check_proof]: a [return], or the locals carried into the next turn. *)
Inductive TurnResult :=
  | Return (pcr : ProofCheckResult) (tokens : Z)
  | Next (st : Locals).

(** The locals of [check_proofs], and for the statements about a run the
    arguments and results of the conversations so far: for each the ceiling
    [max_tokens] it was given and the [tokens_just_used] it reported. *)
Record RunState := {
  ret : list ProofCheckResult;
  tokens_used : Z;
  conversations : list (option Z * Z)
}.

(** ** The engine *)

(** What the module takes from outside. *)
Class Externals := {
  (** [enc.encode]: the token ids of a text. *)
  enc_encode : string -> list nat;
  (** [(self._directory / p).read_text()] *)
  read_text : Path -> string;
  (** [format_file(text, rel_path=p)] *)
  format_file : string -> Path -> string;
  (** [extract_propositions(text, filter=property_filter)], the line numbers
      of the propositions found. *)
  extract_propositions : string -> list Z;
  (** [openai_client.beta.chat.completions.parse]: what the call gives, an
      exception or a completion of the schema asked for, as a function of the
      request and of the requests that came before it. *)
  completions_parse :
    World -> forall fmt : ResponseFormat,
      option Z -> list Message -> exn + ParsedChatCompletion fmt
}.

Section Engine.

Context {ext : Externals}.

(** One call: the request is sent, and the outcome is handed to the
    [try] statement around it. *)
Definition call_parse (fmt : ResponseFormat) (key : option Z)
    (msgs : list Message) : M (exn + ParsedChatCompletion fmt) :=
  fun w =>
    (inr (completions_parse w fmt key msgs),
     w ++ [{| req_max_completion_tokens := key;
              req_messages := msgs;
              req_response_format := fmt |}]).

(** *** Message templates (lines 148-217) *)

Definition correctness_blurb : string :=
  join nl [
    "By " +:+ dq +:+ "correct" +:+ dq +:+ ", we mean very high confidence that each step of the proof is valid,";
    "the proof does in fact prove the proposition, and that the proof is supported by";
    "what the code does. Mark the proof as " +:+ dq +:+ "incorrect" +:+ dq +:+ " if you understand it and the";
    "code but the proof is wrong. Use " +:+ dq +:+ "unknown" +:+ dq +:+ " if e.g. you don't 100% know how an";
    "external library works, or the proof needs more detail. Skeptically and";
    "rigorously check every claim with references to the code. If the proof";
    "references an explicitly-stated axiom (or " +:+ dq +:+ "assumption" +:+ dq +:+ ", etc), you can assume";
    "that the axiom is correct."
  ].

(** [format_file] of each of [ps], one per line group: the contents of the
    files [ps] as they are inlined in a message. *)
Definition file_contents (ps : list Path) : string :=
  join nl ((fun p => format_file (read_text p) p) <$> ps).

Definition message_end : string := nl +:+ "            ".

Section Self.

Variable self : Linter.

(** The text of the full-disclosure message before the file contents. *)
Definition full_prompt (property_location : PropertyLocation) : string :=
  join nl [
    "The following is a listing of all files in a codebase:";
    join nl (str_of_Path <$> _rel_paths self);
    EmptyString;
    "At the end of this message is a listing of all file contents.";
    EmptyString;
    "The file " +:+ str_of_Path (rel_path property_location)
      +:+ " contains one or more propositions";
    "about the codebase. The proposition we are interested in is on line";
    pretty (line_num property_location) +:+ ", and is followed by a proof.";
    EmptyString;
    "In your response, state whether the proof (not the proposition) is correct.";
    correctness_blurb;
    "        ";
    EmptyString;
    "File contents:";
    EmptyString
  ].

(** The text of the incremental-disclosure message before the contents of
    the file of the property. *)
Definition incremental_prompt (property_location : PropertyLocation)
    : string :=
  join nl [
    "The following is a listing of all files in a codebase:";
    join nl (str_of_Path <$> _rel_paths self);
    EmptyString;
    _python_deps_text self;
    EmptyString;
    "At the end of this message is a listing of the contents of "
      +:+ str_of_Path (rel_path property_location) +:+ ".";
    "This file contains one or more propositions";
    "about the codebase. The proposition we are interested in is on line";
    pretty (line_num property_location) +:+ ", and is followed by a proof.";
    EmptyString;
    "The goal of this conversation is to determine whether the proof ";
    "(not the proposition) is correct.";
    EmptyString;
    "Your responses in this conversation can be one of the following.";
    EmptyString;
    "1. Request files";
    EmptyString;
    "In this response, you may request to see additional files from the codebase in";
    "order to ultimately determine whether the proof is correct. They will be";
    "provided to you in the next message. You will have the opportunity to request";
    "further files if needed, and we will repeat this process until you are ready to";
    "make a final determination. You can request up to "
      +:+ pretty MAX_FILES_REQUESTED +:+ " files";
    "at a time.";
    EmptyString;
    "2. Correctness verdict";
    EmptyString;
    "In this response, state whether the proof is correct.";
    correctness_blurb;
    "(Use this response only if you have seen enough of";
    "the codebase to make a determination.)";
    EmptyString;
    "File contents:";
    EmptyString
  ].

Definition _build_initial_message (property_location : PropertyLocation)
    : string :=
  if negb (_exclude_full_files self) then
    full_prompt property_location
      +:+ file_contents (_rel_paths self)
      +:+ message_end
  else
    incremental_prompt property_location
      +:+ format_file (read_text (rel_path property_location))
           (rel_path property_location)
      +:+ message_end.

Definition _build_subsequent_message (files_to_show : list Path)
    : string :=
  "The requested files are given below." +:+ nl +:+ nl
    +:+ file_contents files_to_show
    +:+ nl +:+ "        ".

(** *** One conversation (lines 251-366) *)

(** [sum(len(enc.encode(m["content"])) + MESSAGE_ENVELOPE_TOKENS
         for m in messages if m["role"] == "user")] *)
Definition count_input_tokens (msgs : list Message) : Z :=
  foldr Z.add 0%Z
    ((fun m => (Z.of_nat (length (enc_encode (content m)))
                 + MESSAGE_ENVELOPE_TOKENS)%Z)
       <$> List.filter is_user msgs).

Definition response_format : ResponseFormat :=
  if _exclude_full_files self then FullFilesExcludedResponse
  else FullFilesIncludedResponse.

Definition all_files : gset Path := list_to_set (_rel_paths self).

Definition token_limit_reached (property_location : PropertyLocation)
    : ProofCheckResult :=
  {| property_location := property_location;
     correctness_explanation :=
       inr {| msg := "Token limit reached" |} |}.

(** The part of a turn after a completion came back (lines 317-364). *)
Definition handle_response (property_location : PropertyLocation)
    (st : Locals) (input_tokens : Z)
    (resp : ParsedChatCompletion response_format) : M TurnResult :=
  match usage resp with
  | None => raise (RuntimeError "No token usage available")
  | Some u =>
      let completion_tokens_used' :=
        (completion_tokens_used st + completion_tokens u)%Z in
      let input_tokens_sent' := input_tokens in
      match message_content resp with
      | None => raise (RuntimeError "No response from LLM")
      | Some c =>
          let messages' :=
            messages st ++ [{| role := assistant; content := c |}] in
          match message_parsed resp with
          | None => raise (RuntimeError "No response from LLM")
          | Some parsed =>
              match data parsed with
              | inr response_data =>
                  pure (Return
                          {| property_location := property_location;
                             correctness_explanation :=
                               inl response_data |}
                          (completion_tokens_used'
                             + input_tokens_sent')%Z)
              | inl response_data =>
                  let files :=
                    resolve_files_requested all_files
                      (files_requested response_data) (files_shown st) in
                  let files_shown' :=
                    files_shown st ∪ list_to_set files in
                  match files with
                  | [] => raise (RuntimeError "Invalid response")
                  | _ :: _ =>
                      pure (Next
                        {| files_shown := files_shown';
                           input_tokens_in_messages := input_tokens;
                           input_tokens_sent := input_tokens_sent';
                           completion_tokens_used :=
                             completion_tokens_used';
                           messages :=
                             messages' ++
                               [{| role := user;
                                   content :=
                                     _build_subsequent_message files
                                |}] |})
                  end
              end
          end
      end
  end.

(** Lines 276-296: [None] when the token limit is reached, else the
    [max_completion_tokens_key] of the call, empty without a ceiling. *)
Definition completion_budget (max_tokens : option Z) (st : Locals)
    (input_tokens : Z) : option (option Z) :=
  match max_tokens with
  | None => Some None
  | Some mt =>
      let max_completion_tokens :=
        (mt - completion_tokens_used st - input_tokens)%Z in
      if (max_completion_tokens <=? 0)%Z then None
      else Some (Some max_completion_tokens)
  end.

(** The body of the [for] loop (lines 271-364). *)
Definition turn (property_location : PropertyLocation)
    (max_tokens : option Z) (st : Locals) : M TurnResult :=
  let input_tokens := count_input_tokens (messages st) in
  match completion_budget max_tokens st input_tokens with
  | None =>
      pure (Return (token_limit_reached property_location)
              (completion_tokens_used st + input_tokens_sent st)%Z)
  | Some max_completion_tokens_key =>
      outcome <- call_parse response_format max_completion_tokens_key
                   (messages st) ;;
      match outcome with
      | inl (BadRequestError e) | inl (LengthFinishReasonError e) =>
          pure (Return
                  {| property_location := property_location;
                     correctness_explanation := inr {| msg := e |} |}
                  (py_or max_tokens MAX_CONTEXT_LENGTH))
      | inl e => raise e
      | inr resp =>
          handle_response property_location st input_tokens resp
      end
  end.

(** [for _ in range(n): ... else: raise TimeoutError(...)] *)
Fixpoint check_proof_loop (n : nat)
    (property_location : PropertyLocation) (max_tokens : option Z)
    (st : Locals) : M (ProofCheckResult * Z) :=
  match n with
  | O => raise (TimeoutError "No result after max messages")
  | S n' =>
      r <- turn property_location max_tokens st ;;
      match r with
      | Return pcr tokens => pure (pcr, tokens)
      | Next st' => check_proof_loop n' property_location max_tokens st'
      end
  end.

(** The locals before the loop (lines 254-268). *)
Definition initial_locals (property_location : PropertyLocation)
    : Locals :=
  {| files_shown := ∅;
     input_tokens_in_messages := 0;
     input_tokens_sent := 0;
     completion_tokens_used := 0;
     messages :=
       [{| role := user;
           content := _build_initial_message property_location |}] |}.

Definition check_proof (property_location : PropertyLocation)
    (max_tokens : option Z) : M (ProofCheckResult * Z) :=
  check_proof_loop (Z.to_nat (_max_messages self)) property_location
    max_tokens (initial_locals property_location).

(** The conversation after [n] passes through the loop body: [Next st] when
    all of them went on to the next turn, with the locals [st] the next turn
    starts from. *)
Fixpoint turns (n : nat) (property_location : PropertyLocation)
    (max_tokens : option Z) (st : Locals) : M TurnResult :=
  match n with
  | O => pure (Next st)
  | S n' =>
      r <- turn property_location max_tokens st ;;
      match r with
      | Return pcr tokens => pure (Return pcr tokens)
      | Next st' => turns n' property_location max_tokens st'
      end
  end.

(** *** The run (lines 219-249) *)

(** The ceiling [max_tokens] of the next conversation (lines 223-241). *)
Definition compute_max_tokens (tokens_used : Z) : option Z :=
  match _max_tokens_per_property self, _max_tokens_total self with
  | None, None => None
  | None, Some total =>
      Some (Z.min (total - tokens_used) MAX_CONTEXT_LENGTH)
  | Some per_property, None =>
      Some (Z.min per_property MAX_CONTEXT_LENGTH)
  | Some per_property, Some total =>
      Some (Z.min (Z.min per_property (total - tokens_used))
              MAX_CONTEXT_LENGTH)
  end.

(** One pass through the body of the loop of [check_proofs]. *)
Definition check_proofs_step (rs : RunState)
    (property_location : PropertyLocation) : M RunState :=
  let max_tokens := compute_max_tokens (tokens_used rs) in
  '(pcr, tokens_just_used) <- check_proof property_location max_tokens ;;
  pure {| ret := ret rs ++ [pcr];
          tokens_used := (tokens_used rs + tokens_just_used)%Z;
          conversations :=
            conversations rs ++ [(max_tokens, tokens_just_used)] |}.

Fixpoint check_proofs_loop (locs : list PropertyLocation)
    (rs : RunState) : M RunState :=
  match locs with
  | [] => pure rs
  | property_location :: rest =>
      rs' <- check_proofs_step rs property_location ;;
      check_proofs_loop rest rs'
  end.

Definition initial_run : RunState :=
  {| ret := []; tokens_used := 0; conversations := [] |}.

Definition check_proofs : M (list ProofCheckResult) :=
  rs <- check_proofs_loop (_property_locations self) initial_run ;;
  pure (ret rs).
End Self.

(** *** Construction (lines 86-146) *)

(** [sum(len(doc) for doc in documents)] *)
Definition total_length (rel_paths : list Path) : Z :=
  foldr Z.add 0%Z ((fun p => Z.of_nat (len (read_text p)))
                     <$> rel_paths).

(** [__init__], given what [get_rel_paths] and [get_deps_rec] found:
    [python_deps] is the JSON text of a non-empty dependency graph. *)
Definition Linter_init (rel_paths : list Path) (max_messages : Z)
    (min_length_to_exclude_full_files : Z) (max_files : Z)
    (python_deps : option string)
    (max_tokens_total max_tokens_per_property : option Z)
    : exn + Linter :=
  if (max_files <? Z.of_nat (length rel_paths))%Z then
    inl (ValueError ("Too many files: " +:+ pretty (length rel_paths)))
  else
    inr {| _rel_paths := rel_paths;
           _property_locations :=
             p ← rel_paths;
             (fun n => {| rel_path := p; line_num := n |})
               <$> extract_propositions (read_text p);
           _max_messages := max_messages;
           _exclude_full_files :=
             (min_length_to_exclude_full_files <=? total_length rel_paths)%Z;
           _python_deps_text :=
             match python_deps with
             | Some json =>
                 "Here is the dependency graph of the codebase:" +:+ nl
                   +:+ json +:+ nl +:+ nl
             | None => EmptyString
             end;
           _max_tokens_total := max_tokens_total;
           _max_tokens_per_property := max_tokens_per_property |}.
End Engine.

(** ** The budget rule in the words of the specification

    No ceiling when neither limit is set; the per-property limit, the rest of
    the total, or the smaller of the two, and never more than the hard
    context cap. *)
Definition ceiling_spec (max_tokens_total max_tokens_per_property : option Z)
    (tokens_used_so_far hard_context_cap : Z) : option Z :=
  match max_tokens_total, max_tokens_per_property with
  | None, None => None
  | None, Some per_property => Some (Z.min per_property hard_context_cap)
  | Some total, None =>
      Some (Z.min (total - tokens_used_so_far) hard_context_cap)
  | Some total, Some per_property =>
      Some (Z.min per_property
              (Z.min (total - tokens_used_so_far) hard_context_cap))
  end.

(** The sum of the costs the conversations reported. *)
Definition tokens_reported (cs : list (option Z * Z)) : Z :=
  foldr Z.add 0%Z (snd <$> cs).

(** The request a turn sends from the locals [st] with the completion-token
    cap [key]. *)
Definition request_of `{Externals} (self : Linter) (key : option Z)
    (st : Locals) : Request :=
  {| req_max_completion_tokens := key;
     req_messages := messages st;
     req_response_format := response_format self |}.

(** The service reports token counts: no completion has a negative
    [usage.completion_tokens]. *)
Definition reports_token_counts `{Externals} : Prop :=
  forall (w : World) (fmt : ResponseFormat) (key : option Z)
         (msgs : list Message) (resp : ParsedChatCompletion fmt)
         (u : CompletionUsage),
    completions_parse w fmt key msgs = inr resp ->
    usage resp = Some u ->
    (0 <= completion_tokens u)%Z.

(** A Failure result with the text [e]. *)
Definition failure (property_location : PropertyLocation) (e : string)
    : ProofCheckResult :=
  {| property_location := property_location;
     correctness_explanation := inr {| msg := e |} |}.

(** A verdict result. *)
Definition verdict (property_location : PropertyLocation)
    (ce : CorrectnessExplanation) : ProofCheckResult :=
  {| property_location := property_location;
     correctness_explanation := inl ce |}.

(** ** A scripted service, for examples

    The [k]-th call of a run is answered by the [k]-th reply of the script,
    and by a verdict when the script is used up. *)
Inductive Reply :=
  | ReplyRaise (e : exn)
  | ReplyVerdict (tokens : Z) (c : Correctness)
  | ReplyFiles (tokens : Z) (files : list string).

Definition completion_of_reply (fmt : ResponseFormat) (r : Reply)
    : exn + ParsedChatCompletion fmt :=
  match r with
  | ReplyRaise e => inl e
  | ReplyVerdict tokens c =>
      let ce := {| correctness := c; explanation := "checked" |} in
      inr {| usage := Some {| completion_tokens := tokens |};
             message_content := Some "verdict";
             message_parsed :=
               Some (match fmt return data_type fmt with
                     | FullFilesExcludedResponse => inr ce
                     | FullFilesIncludedResponse => ce
                     end) |}
  | ReplyFiles tokens files =>
      inr {| usage := Some {| completion_tokens := tokens |};
             message_content := Some "files";
             message_parsed :=
               match fmt return option (data_type fmt) with
               | FullFilesExcludedResponse =>
                   Some (inl {| files_requested := files |})
               | FullFilesIncludedResponse => None
               end |}
  end.

Definition scripted (script : list Reply) : Externals :=
  {| enc_encode := fun s => repeat 0 (String.length s);
     read_text := fun p => "# " +:+ str_of_Path p;
     format_file := fun text p => "--- " +:+ str_of_Path p +:+ nl +:+ text;
     extract_propositions := fun _ => [1%Z];
     completions_parse := fun w fmt _ _ =>
       completion_of_reply fmt
         (nth (length w) script (ReplyVerdict 10 correct)) |}.

(** A code base of three files, each with one proposition on line 1. *)
Definition demo_paths : list Path := [["a.py"]; ["lib"; "b.py"]; ["lib"; "c.py"]].

Definition demo_linter (max_messages : Z) (threshold : Z)
    (total per_property : option Z) : Linter :=
  match Linter_init (ext := scripted []) demo_paths max_messages threshold
          1000 None total per_property with
  | inr self => self
  | inl _ =>
      {| _rel_paths := []; _property_locations := []; _max_messages := 0;
         _exclude_full_files := false; _python_deps_text := EmptyString;
         _max_tokens_total := None; _max_tokens_per_property := None |}
  end.

Definition demo_location : PropertyLocation :=
  {| rel_path := ["a.py"]; line_num := 1 |}.

(** The conversations of the examples.  In each the code base is
    [demo_paths] and the property is the one of [a.py]. *)

(** The token counts of a script are counts. *)
Definition reply_tokens_nonneg (r : Reply) : Prop :=
  match r with
  | ReplyRaise _ => True
  | ReplyVerdict tokens _ | ReplyFiles tokens _ => (0 <= tokens)%Z
  end.

(** Incremental disclosure: the threshold is 0. *)
Definition linter_incremental (max_messages : Z) : Linter :=
  demo_linter max_messages 0 None None.

(** Full disclosure: the files are shorter than 100000 characters. *)
Definition linter_full : Linter := demo_linter 50 100000 None None.

(** A per-property limit of 100 tokens. *)
Definition linter_small_budget : Linter := demo_linter 50 0 None (Some 100%Z).

(** A total of 5000 tokens and a per-property limit of 3000. *)
Definition linter_budgets : Linter :=
  demo_linter 50 100000 (Some 5000%Z) (Some 3000%Z).

(** A per-property limit of 4000 tokens. *)
Definition linter_per_property : Linter := demo_linter 50 0 None (Some 4000%Z).

(** A total of 1340 tokens, which the first conversation uses up. *)
Definition linter_tight_total : Linter :=
  demo_linter 50 100000 (Some 1340%Z) None.

(** Every call is answered by a verdict that took 10 completion tokens. *)
Definition service_verdict : Externals := scripted [].

(** The first call is answered by a request for the file of the property
    itself, the second by a verdict. *)
Definition service_asks_again : Externals :=
  scripted [ReplyFiles 7 ["a.py"]; ReplyVerdict 5 correct].

(** The first call is answered by a request for [lib/b.py], the second by a
    request for that file again, twice, and for a file that does not
    exist. *)
Definition service_asks_nothing_new : Externals :=
  scripted [ReplyFiles 7 ["lib/b.py"];
            ReplyFiles 7 ["lib/b.py"; "missing.py"; "lib/b.py"]].

(** Every call is answered by a request for one more file. *)
Definition service_keeps_asking : Externals :=
  scripted [ReplyFiles 7 ["lib/b.py"]; ReplyFiles 7 ["lib/c.py"];
            ReplyFiles 7 ["a.py"]].

(** The first call is rejected. *)
Definition service_rejects : Externals :=
  scripted [ReplyRaise (BadRequestError "context length exceeded")].

(** The locals and the requests sent after [n] turns that all went on. *)
Definition locals_after `{Externals} (self : Linter) (n : nat)
    (loc : PropertyLocation) (mt : option Z) (w : World) : Locals :=
  match fst (turns self n loc mt (initial_locals self loc) w) with
  | inr (Next st) => st
  | _ => initial_locals self loc
  end.

Definition world_after `{Externals} (self : Linter) (n : nat)
    (loc : PropertyLocation) (mt : option Z) (w : World) : World :=
  snd (turns self n loc mt (initial_locals self loc) w).

(** The locals of [check_proofs] after the properties [locs]. *)
Definition run_after `{Externals} (self : Linter)
    (locs : list PropertyLocation) (w : World) : RunState :=
  match fst (check_proofs_loop self locs initial_run w) with
  | inr rs => rs
  | inl _ => initial_run
  end.

(** ** The command line (lines 369-445)

    [main] builds the linter, checks the proofs, prints the results and sets
    the exit status; [cli] returns 0 when [main] has not exited.  The files
    [get_rel_paths] finds for the directory and the filter paths and the
    graph [get_deps_rec] finds are given; what is printed is the list of
    results, which [json.dumps] renders. *)

(** [isinstance(result.correctness_explanation, Failure)
     or result.correctness_explanation.correctness != "correct"] *)
Definition not_correct (result : ProofCheckResult) : bool :=
  match correctness_explanation result with
  | inr _ => true
  | inl ce =>
      match correctness ce with
      | correct => false
      | incorrect | unknown => true
      end
  end.

(** The status the process exits with after the results are printed. *)
Definition exit_status (results : list ProofCheckResult) : Z :=
  if existsb not_correct results then 1%Z else 0%Z.

Definition main `{Externals} (rel_paths : list Path)
    (max_files max_messages min_length_to_exclude_full_files : Z)
    (python_deps : option string)
    (max_tokens_total max_tokens_per_property : option Z)
    : M (list ProofCheckResult * Z) :=
  match Linter_init rel_paths max_messages min_length_to_exclude_full_files
          max_files python_deps max_tokens_total max_tokens_per_property with
  | inl e => raise e
  | inr linter =>
      results <- check_proofs linter ;;
      pure (results, exit_status results)
  end.

(** ** Notions for the statements about conversations *)

(** The service keeps to the cap it is given: it reports no more completion
    tokens than a positive [max_completion_tokens]. *)
Definition honours_completion_cap `{Externals} : Prop :=
  forall (w : World) (fmt : ResponseFormat) (k : Z)
         (msgs : list Message) (resp : ParsedChatCompletion fmt)
         (u : CompletionUsage),
    (0 < k)%Z ->
    completions_parse w fmt (Some k) msgs = inr resp ->
    usage resp = Some u ->
    (completion_tokens u <= k)%Z.

(** The two messages a file-request turn adds: the reply [c] of the service
    and the follow-up that inlines the files [d]. *)
Definition follow_up `{Externals} (cd : string * list Path) : list Message :=
  [ {| role := assistant; content := fst cd |};
    {| role := user; content := _build_subsequent_message (snd cd) |} ].

(** The messages of a conversation whose file-request turns were [tr], in
    order. *)
Definition transcript `{Externals} (self : Linter) (loc : PropertyLocation)
    (tr : list (string * list Path)) : list Message :=
  {| role := user; content := _build_initial_message self loc |}
    :: concat (follow_up <$> tr).

(** A component of a relative path as the listing of the initial message
    names it: not empty, not ["."], without a slash. *)
Fixpoint has_slash (s : string) : bool :=
  match s with
  | EmptyString => false
  | String c s' => Ascii.eqb c slash || has_slash s'
  end.

Definition is_name (x : string) : bool :=
  is_component x && negb (has_slash x).

Definition is_relative_path (p : Path) : Prop :=
  p <> [] /\ Forall (fun x => is_name x = true) p.

(** A scripted service that keeps to the cap: it reports the tokens of the
    script, cut to the cap of the request. *)
Definition cap_tokens (key : option Z) (tokens : Z) : Z :=
  match key with
  | Some k => Z.max 0 (Z.min tokens k)
  | None => tokens
  end.

Definition cap_reply (key : option Z) (r : Reply) : Reply :=
  match r with
  | ReplyRaise e => ReplyRaise e
  | ReplyVerdict tokens c => ReplyVerdict (cap_tokens key tokens) c
  | ReplyFiles tokens files => ReplyFiles (cap_tokens key tokens) files
  end.

Definition scripted_capped (script : list Reply) : Externals :=
  {| enc_encode := fun s => repeat 0 (String.length s);
     read_text := fun p => "# " +:+ str_of_Path p;
     format_file := fun text p => "--- " +:+ str_of_Path p +:+ nl +:+ text;
     extract_propositions := fun _ => [1%Z];
     completions_parse := fun w fmt key _ =>
       completion_of_reply fmt
         (cap_reply key (nth (length w) script (ReplyVerdict 10 correct))) |}.

(** The first call fails with an exception the engine does not catch. *)
Definition service_unreachable : Externals :=
  scripted [ReplyRaise (OtherError "connection reset")].

(** A service that keeps to the cap: verdicts at up to 2000 completion
    tokens each. *)
Definition service_capped : Externals :=
  scripted_capped [ReplyVerdict 2000 correct; ReplyVerdict 2000 incorrect;
                   ReplyVerdict 2000 correct].

(** * Properties *)

(** ** The order on paths *)

Lemma string_ltb_spec (a b : string) :
  String.ltb a b = true <-> String.leb a b = true /\ a <> b.
Proof.
  unfold String.ltb, String.leb.
  destruct (String.compare a b) eqn:E; split; try (intros [? ?]); try easy.
  - apply String.compare_eq_iff in E. intuition.
  - intros _. split; [reflexivity|]. intros ->.
    pose proof (String.compare_antisym b b) as A. rewrite E in A.
    discriminate.
Qed.

Lemma string_ltb_irrefl (a : string) : String.ltb a a = false.
Proof.
  destruct (String.ltb a a) eqn:E; [|reflexivity].
  apply string_ltb_spec in E. destruct E as [_ E]. congruence.
Qed.

Lemma string_ltb_trans (a b c : string) :
  String.ltb a b = true -> String.ltb b c = true -> String.ltb a c = true.
Proof.
  rewrite !string_ltb_spec. intros [Hab Nab] [Hbc Nbc]. split.
  - apply Is_true_true. apply Is_true_true in Hab, Hbc.
    exact (transitivity (R := String.le) Hab Hbc).
  - intros ->. apply Nab. apply String.leb_antisym; assumption.
Qed.

Lemma string_ltb_total (a b : string) :
  a <> b -> String.ltb a b = true \/ String.ltb b a = true.
Proof.
  intros N. rewrite !string_ltb_spec.
  destruct (String.leb_total a b); [left|right]; split; congruence.
Qed.

Lemma Path_ltb_irrefl (p : Path) : Path_ltb p p = false.
Proof.
  induction p as [|a p IH]; simpl; [reflexivity|].
  rewrite String.eqb_refl. exact IH.
Qed.

Lemma Path_ltb_trans (p q r : Path) :
  Path_ltb p q = true -> Path_ltb q r = true -> Path_ltb p r = true.
Proof.
  revert q r. induction p as [|a p IH]; intros [|b q] [|c r]; simpl; try easy.
  destruct (String.eqb_spec a b) as [->|Nab].
  - destruct (String.eqb_spec b c) as [->|Nbc]; [apply IH | easy].
  - destruct (String.eqb_spec b c) as [->|Nbc].
    + intros H _. destruct (String.eqb_spec a c); [congruence | exact H].
    + intros Hab Hbc. pose proof (string_ltb_trans _ _ _ Hab Hbc) as Hac.
      destruct (String.eqb_spec a c) as [->|]; [|exact Hac].
      rewrite string_ltb_irrefl in Hac. discriminate.
Qed.

Lemma Path_ltb_total (p q : Path) :
  p <> q -> Path_ltb p q = true \/ Path_ltb q p = true.
Proof.
  revert q. induction p as [|a p IH]; intros [|b q] N; simpl; auto.
  all: try congruence.
  rewrite (String.eqb_sym b a).
  destruct (String.eqb_spec a b) as [->|Nab].
  - apply IH. congruence.
  - apply string_ltb_total. exact Nab.
Qed.

Lemma Path_ltb_asym (p q : Path) :
  Path_ltb p q = true -> Path_ltb q p = false.
Proof.
  intros H. destruct (Path_ltb q p) eqn:E; [|reflexivity].
  pose proof (Path_ltb_trans _ _ _ H E) as C.
  rewrite Path_ltb_irrefl in C. discriminate.
Qed.

#[global] Instance Path_le_total : Total Path_le.
Proof.
  intros p q. unfold Path_le.
  destruct (Path_ltb q p) eqn:E; [right | left; reflexivity].
  apply Path_ltb_asym. exact E.
Qed.

#[global] Instance Path_le_antisym : AntiSymm (=) Path_le.
Proof.
  intros p q Hpq Hqp. unfold Path_le in *.
  destruct (decide (p = q)) as [|N]; [assumption|].
  destruct (Path_ltb_total p q N); congruence.
Qed.

#[global] Instance Path_le_trans : Transitive Path_le.
Proof.
  intros p q r Hpq Hqr. unfold Path_le in *.
  destruct (Path_ltb r p) eqn:E; [|reflexivity].
  destruct (decide (q = p)) as [->|N]; [congruence|].
  destruct (Path_ltb_total q p N) as [H|H]; [congruence|].
  rewrite (Path_ltb_trans _ _ _ E H) in Hqr. discriminate.
Qed.

Lemma Path_le_lt (p q : Path) : Path_le p q -> p <> q -> Path_ltb p q = true.
Proof.
  unfold Path_le. intros H N.
  destruct (Path_ltb_total p q N); congruence.
Qed.

(** ** Sorting a set of paths *)

Lemma sorted_paths_Permutation (s : gset Path) : sorted_paths s ≡ₚ elements s.
Proof. apply merge_sort_Permutation. Qed.

Lemma sorted_paths_StronglySorted (s : gset Path) :
  StronglySorted Path_le (sorted_paths s).
Proof. apply (StronglySorted_merge_sort Path_le). Qed.

Lemma sorted_paths_NoDup (s : gset Path) : NoDup (sorted_paths s).
Proof. rewrite sorted_paths_Permutation. apply NoDup_elements. Qed.

Lemma elem_of_sorted_paths (s : gset Path) (p : Path) :
  p ∈ sorted_paths s <-> p ∈ s.
Proof. rewrite sorted_paths_Permutation. apply elem_of_elements. Qed.

Lemma length_sorted_paths (s : gset Path) : length (sorted_paths s) = size s.
Proof. unfold size, set_size. simpl. now rewrite sorted_paths_Permutation. Qed.

(** Whatever order the set is iterated in, sorting gives the same list. *)
Lemma sorted_paths_any_order (s : gset Path) (l : list Path) :
  l ≡ₚ elements s -> merge_sort Path_le l = sorted_paths s.
Proof.
  intros H. apply (StronglySorted_unique Path_le).
  - apply (StronglySorted_merge_sort Path_le).
  - apply sorted_paths_StronglySorted.
  - rewrite merge_sort_Permutation, H. symmetry. apply sorted_paths_Permutation.
Qed.

Lemma StronglySorted_strict (l : list Path) :
  StronglySorted Path_le l -> NoDup l ->
  StronglySorted (fun p q => Path_ltb p q = true) l.
Proof.
  induction 1 as [|p l Hl IH Hp]; intros Hnd; constructor.
  - apply IH. now apply NoDup_cons_1_2 in Hnd.
  - apply NoDup_cons in Hnd as [Hnotin _].
    rewrite Forall_forall in *. intros q Hq.
    apply Path_le_lt; [now apply Hp|]. intros ->. contradiction.
Qed.

(** The first [n] paths of a set in sorted order are its [n] smallest. *)
Lemma take_sorted_paths_smallest (n : nat) (s : gset Path) (p q : Path) :
  p ∈ s -> p ∉ take n (sorted_paths s) -> q ∈ take n (sorted_paths s) ->
  Path_ltb q p = true.
Proof.
  intros Hp Hnot Hq.
  pose proof (sorted_paths_StronglySorted s) as Hs.
  pose proof (sorted_paths_NoDup s) as Hnd.
  rewrite <- (take_drop n (sorted_paths s)) in Hs, Hnd.
  assert (p ∈ drop n (sorted_paths s)) as Hdrop.
  { apply elem_of_sorted_paths in Hp.
    rewrite <- (take_drop n (sorted_paths s)) in Hp.
    apply elem_of_app in Hp as [Hp|Hp]; [contradiction | exact Hp]. }
  apply Path_le_lt.
  - exact (StronglySorted_app_1_elem_of _ _ _ _ _ Hs Hq Hdrop).
  - intros ->. apply NoDup_app in Hnd as (_ & Hdisj & _).
    exact (Hdisj _ Hq Hdrop).
Qed.

(** What is resolved was requested, is known and was not shown, and is
    resolved once. *)
Lemma elem_of_resolve_files_requested
    (all_files : gset Path) (requested : list string) (shown : gset Path)
    (p : Path) :
  p ∈ resolve_files_requested all_files requested shown ->
  p ∈ all_files /\ p ∈ Path_of_str <$> requested /\ p ∉ shown.
Proof.
  intros Hp. unfold resolve_files_requested in Hp.
  apply subseteq_take, elem_of_sorted_paths in Hp.
  rewrite elem_of_difference, elem_of_intersection, elem_of_list_to_set in Hp.
  tauto.
Qed.

Lemma NoDup_resolve_files_requested
    (all_files : gset Path) (requested : list string) (shown : gset Path) :
  NoDup (resolve_files_requested all_files requested shown).
Proof.
  unfold resolve_files_requested.
  eapply sublist_NoDup; [apply sorted_paths_NoDup | apply sublist_take].
Qed.

(** ** C4: resolution of a file request *)

(** C4.  The files disclosed in answer to a file request are exactly: the
    requested paths that are known files and were not shown yet, without
    duplicates, in strictly increasing path order, cut to
    [MAX_FILES_REQUESTED] = 5, the smallest ones being kept; the result
    depends on the request only through the set of paths it names, and not on
    the order the set is iterated in. *)
Theorem resolve_files_requested_spec
    (all_files : gset Path) (requested : list string) (shown : gset Path) :
  let candidates : gset Path :=
    (all_files ∩ list_to_set (Path_of_str <$> requested)) ∖ shown in
  let resolved := resolve_files_requested all_files requested shown in
  MAX_FILES_REQUESTED = 5
  /\ (forall p, p ∈ resolved ->
        p ∈ all_files /\ p ∈ Path_of_str <$> requested /\ p ∉ shown)
  /\ NoDup resolved
  /\ StronglySorted (fun p q => Path_ltb p q = true) resolved
  /\ length resolved = Nat.min MAX_FILES_REQUESTED (size candidates)
  /\ (forall p q,
        p ∈ all_files -> p ∈ Path_of_str <$> requested -> p ∉ shown ->
        p ∉ resolved -> q ∈ resolved -> Path_ltb q p = true)
  /\ (forall requested',
        (forall p, p ∈ Path_of_str <$> requested
                   <-> p ∈ Path_of_str <$> requested') ->
        resolve_files_requested all_files requested' shown = resolved)
  /\ (forall l, l ≡ₚ elements candidates ->
        take MAX_FILES_REQUESTED (merge_sort Path_le l) = resolved).
Proof.
  intros candidates resolved.
  assert (forall p, p ∈ candidates <->
            p ∈ all_files /\ p ∈ Path_of_str <$> requested /\ p ∉ shown)
    as Hcand.
  { intros p. unfold candidates.
    rewrite elem_of_difference, elem_of_intersection, elem_of_list_to_set.
    tauto. }
  assert (NoDup resolved) as Hnd by apply NoDup_resolve_files_requested.
  split; [reflexivity|].
  split; [|split; [exact Hnd|split; [|split; [|split; [|split]]]]].
  - apply elem_of_resolve_files_requested.
  - apply StronglySorted_strict; [|exact Hnd].
    pose proof (sorted_paths_StronglySorted candidates) as Hs.
    rewrite <- (take_drop MAX_FILES_REQUESTED (sorted_paths candidates)) in Hs.
    exact (StronglySorted_app_1_l _ _ _ Hs).
  - unfold resolved, resolve_files_requested.
    now rewrite length_take, length_sorted_paths.
  - intros p q H1 H2 H3 Hnot Hq.
    apply (take_sorted_paths_smallest MAX_FILES_REQUESTED candidates);
      [apply Hcand; auto | exact Hnot | exact Hq].
  - intros requested' Hsame. unfold resolved, resolve_files_requested.
    replace (list_to_set (Path_of_str <$> requested') : gset Path)
      with (list_to_set (Path_of_str <$> requested) : gset Path);
      [reflexivity|].
    apply set_eq. intros p. rewrite !elem_of_list_to_set. apply Hsame.
  - intros l Hl. unfold resolved, resolve_files_requested.
    now rewrite (sorted_paths_any_order candidates l Hl).
Qed.

(** Eight known files, none shown yet, requested in no particular order and
    one of them twice, with a file that does not exist: the five smallest are
    disclosed.  The order is that of the lists of components: [t/x.py] comes
    before [t.py], since [t] is a proper prefix of [t.py], and is the fifth
    file disclosed, although the text [t.py] comes before the text
    [t/x.py]. *)
Example resolve_eight_files :
  resolve_files_requested
    (list_to_set [["v.py"]; ["t.py"]; ["b.py"]; ["a.py"];
                  ["u.py"]; ["t"; "x.py"]; ["d.py"]; ["c.py"]])
    ["v.py"; "u.py"; "t.py"; "d.py"; "t/x.py"; "c.py"; "./b.py";
     "a.py"; "missing.py"; "u.py"]
    ∅
  = [["a.py"]; ["b.py"]; ["c.py"]; ["d.py"]; ["t"; "x.py"]].
Proof. vm_compute. reflexivity. Qed.

(** ** One conversation *)

Section Conversation.

Context {ext : Externals}.
Variable self : Linter.

Implicit Types (loc : PropertyLocation) (mt key : option Z).
Implicit Types (st : Locals) (w : World).

Lemma count_input_tokens_nonneg (msgs : list Message) :
  (0 <= count_input_tokens msgs)%Z.
Proof.
  unfold count_input_tokens.
  assert (0 <= MESSAGE_ENVELOPE_TOKENS)%Z by (unfold MESSAGE_ENVELOPE_TOKENS; lia).
  induction (List.filter is_user msgs) as [|m l IH]; cbn; lia.
Qed.

(** Only the messages of role [user] are counted. *)
Lemma count_input_tokens_app (msgs : list Message) (m : Message) :
  count_input_tokens (msgs ++ [m]) =
  (count_input_tokens msgs
   + match role m with
     | user => Z.of_nat (length (enc_encode (content m)))
               + MESSAGE_ENVELOPE_TOKENS
     | assistant => 0
     end)%Z.
Proof.
  unfold count_input_tokens. rewrite List.filter_app. cbn.
  unfold is_user at 2. destruct (role m); cbn.
  - rewrite fmap_app, foldr_app. cbn.
    induction (List.filter is_user msgs) as [|x l IH]; cbn; lia.
  - rewrite app_nil_r. lia.
Qed.

Lemma count_input_tokens_user_only (msgs : list Message) :
  count_input_tokens msgs =
  foldr Z.add 0%Z
    ((fun m => match role m with
               | user => (Z.of_nat (length (enc_encode (content m)))
                          + MESSAGE_ENVELOPE_TOKENS)%Z
               | assistant => 0%Z
               end) <$> msgs).
Proof.
  unfold count_input_tokens.
  induction msgs as [|m l IH]; [reflexivity|].
  cbn. unfold is_user at 1. destruct (role m); cbn; rewrite IH; reflexivity.
Qed.

Lemma completion_budget_None mt st :
  completion_budget mt st (count_input_tokens (messages st)) = None <->
  exists c, mt = Some c /\
    (c - completion_tokens_used st - count_input_tokens (messages st) <= 0)%Z.
Proof.
  unfold completion_budget. destruct mt as [c|].
  - destruct (Z.leb_spec (c - completion_tokens_used st
                           - count_input_tokens (messages st)) 0).
    + split; [eauto | reflexivity].
    + split; [discriminate|]. intros (c' & [= <-] & ?). lia.
  - split; [discriminate | intros (c & ? & _); discriminate].
Qed.

Lemma completion_budget_Some mt st key :
  completion_budget mt st (count_input_tokens (messages st)) = Some key ->
  match mt with
  | None => key = None
  | Some c =>
      key = Some (c - completion_tokens_used st
                  - count_input_tokens (messages st))%Z
      /\ (0 < c - completion_tokens_used st
              - count_input_tokens (messages st))%Z
  end.
Proof.
  unfold completion_budget. destruct mt as [c|]; [|congruence].
  destruct (Z.leb_spec (c - completion_tokens_used st
                         - count_input_tokens (messages st)) 0);
    [discriminate|].
  intros [= <-]. split; [reflexivity | lia].
Qed.

(** A turn whose budget is used up returns without a call. *)
Lemma turn_limit loc mt st w :
  completion_budget mt st (count_input_tokens (messages st)) = None ->
  turn self loc mt st w =
  (inr (Return (token_limit_reached loc)
          (completion_tokens_used st + input_tokens_sent st)%Z), w).
Proof. intros H. unfold turn. rewrite H. reflexivity. Qed.

(** Any other turn makes exactly one call, whatever comes of it. *)
Lemma turn_call loc mt st w key :
  completion_budget mt st (count_input_tokens (messages st)) = Some key ->
  snd (turn self loc mt st w) = w ++ [request_of self key st].
Proof.
  intros H. unfold turn. rewrite H. unfold bind, call_parse.
  destruct (completions_parse w (response_format self) key (messages st))
    as [[]|resp]; try reflexivity.
  unfold handle_response.
  destruct (usage resp); [|reflexivity].
  destruct (message_content resp); [|reflexivity].
  destruct (message_parsed resp) as [parsed|]; [|reflexivity].
  destruct (data parsed); [|reflexivity].
  destruct (resolve_files_requested _ _ _); reflexivity.
Qed.

Lemma turn_world loc mt st w :
  exists reqs, snd (turn self loc mt st w) = w ++ reqs /\ length reqs <= 1.
Proof.
  destruct (completion_budget mt st (count_input_tokens (messages st)))
    as [key|] eqn:E.
  - exists [request_of self key st]. split; [now apply turn_call | simpl; lia].
  - exists []. rewrite (turn_limit _ _ _ _ E). split;
      [now rewrite app_nil_r | simpl; lia].
Qed.

(** What a turn that goes on to the next one has done. *)
Lemma turn_Next_inv loc mt st w st' w' :
  turn self loc mt st w = (inr (Next st'), w') ->
  exists key resp u c parsed fr,
    completion_budget mt st (count_input_tokens (messages st)) = Some key
    /\ completions_parse w (response_format self) key (messages st)
       = inr resp
    /\ usage resp = Some u
    /\ message_content resp = Some c
    /\ message_parsed resp = Some parsed
    /\ data parsed = inl fr
    /\ resolve_files_requested (all_files self) (files_requested fr)
         (files_shown st) <> []
    /\ w' = w ++ [request_of self key st]
    /\ st' =
       {| files_shown :=
            files_shown st ∪
              list_to_set (resolve_files_requested (all_files self)
                             (files_requested fr) (files_shown st));
          input_tokens_in_messages := count_input_tokens (messages st);
          input_tokens_sent := count_input_tokens (messages st);
          completion_tokens_used :=
            (completion_tokens_used st + completion_tokens u)%Z;
          messages :=
            (messages st ++ [{| role := assistant; content := c |}])
              ++ [{| role := user;
                     content :=
                       _build_subsequent_message
                         (resolve_files_requested (all_files self)
                            (files_requested fr) (files_shown st)) |}] |}.
Proof.
  unfold turn.
  destruct (completion_budget mt st (count_input_tokens (messages st)))
    as [key|] eqn:E; [|discriminate].
  unfold bind, call_parse.
  destruct (completions_parse w (response_format self) key (messages st))
    as [[]|resp] eqn:Ec; try discriminate.
  unfold handle_response.
  destruct (usage resp) as [u|] eqn:Eu; [|discriminate].
  destruct (message_content resp) as [c|] eqn:Em; [|discriminate].
  destruct (message_parsed resp) as [parsed|] eqn:Ep; [|discriminate].
  destruct (data parsed) as [fr|ce] eqn:Ed; [|discriminate].
  destruct (resolve_files_requested (all_files self) (files_requested fr)
              (files_shown st)) as [|f fs] eqn:Er; [discriminate|].
  intros [= <- <-].
  exists key, resp, u, c, parsed, fr. rewrite Er.
  repeat split; try assumption; try reflexivity. discriminate.
Qed.

(** The loop after [n] turns. *)
Lemma check_proof_loop_turns loc mt (n m : nat) st w :
  check_proof_loop self (n + m) loc mt st w =
  match turns self n loc mt st w with
  | (inl e, w') => (inl e, w')
  | (inr (Return pcr tokens), w') => (inr (pcr, tokens), w')
  | (inr (Next st'), w') => check_proof_loop self m loc mt st' w'
  end.
Proof.
  revert st w. induction n as [|n IH]; intros st w; [reflexivity|].
  simpl. unfold bind.
  destruct (turn self loc mt st w) as [[e|[pcr t|st']] w'];
    try reflexivity.
  apply IH.
Qed.

(** The requests of a conversation are added to those sent before, and there
    are no more of them than turns. *)
Lemma check_proof_loop_world loc mt (n : nat) st w :
  exists reqs,
    snd (check_proof_loop self n loc mt st w) = w ++ reqs
    /\ length reqs <= n.
Proof.
  revert st w. induction n as [|n IH]; intros st w.
  - exists []. simpl. split; [now rewrite app_nil_r | lia].
  - simpl. unfold bind.
    destruct (turn_world loc mt st w) as (r1 & H1 & L1).
    destruct (turn self loc mt st w) as [[e|[pcr t|st']] w'];
      simpl in H1; subst w'.
    + exists r1. split; [reflexivity | lia].
    + exists r1. split; [reflexivity | lia].
    + destruct (IH st' (w ++ r1)) as (r2 & H2 & L2).
      exists (r1 ++ r2). rewrite H2, length_app, app_assoc.
      split; [reflexivity | lia].
Qed.

(** A conversation that has come to the start of a turn within its turn
    budget does what that turn does. *)
Lemma check_proof_at_turn loc mt (n : nat) st w0 w :
  n < Z.to_nat (_max_messages self) ->
  turns self n loc mt (initial_locals self loc) w0 = (inr (Next st), w) ->
  check_proof self loc mt w0 =
  match turn self loc mt st w with
  | (inl e, w') => (inl e, w')
  | (inr (Return pcr tokens), w') => (inr (pcr, tokens), w')
  | (inr (Next st'), w') =>
      check_proof_loop self (Z.to_nat (_max_messages self) - n - 1) loc mt
        st' w'
  end.
Proof.
  intros Hn Hturns. unfold check_proof.
  replace (Z.to_nat (_max_messages self))
    with (n + S (Z.to_nat (_max_messages self) - n - 1)) at 1 by lia.
  rewrite check_proof_loop_turns, Hturns. simpl. unfold bind.
  destruct (turn self loc mt st w) as [[e|[pcr t|st']] w']; reflexivity.
Qed.

Lemma turn_empty_disclosure loc mt st w key
    (resp : ParsedChatCompletion (response_format self)) u c parsed fr :
  completion_budget mt st (count_input_tokens (messages st)) = Some key ->
  completions_parse w (response_format self) key (messages st) = inr resp ->
  usage resp = Some u ->
  message_content resp = Some c ->
  message_parsed resp = Some parsed ->
  data parsed = inl fr ->
  resolve_files_requested (all_files self) (files_requested fr)
    (files_shown st) = [] ->
  turn self loc mt st w =
  (inl (RuntimeError "Invalid response"), w ++ [request_of self key st]).
Proof.
  intros Hb Hc Hu Hm Hp Hd Hr. unfold turn. rewrite Hb.
  unfold bind, call_parse. rewrite Hc. unfold handle_response.
  rewrite Hu, Hm, Hp, Hd, Hr. reflexivity.
Qed.

Lemma turn_rejected loc mt st w key exc e :
  completion_budget mt st (count_input_tokens (messages st)) = Some key ->
  completions_parse w (response_format self) key (messages st) = inl exc ->
  exc = BadRequestError e \/ exc = LengthFinishReasonError e ->
  turn self loc mt st w =
  (inr (Return (failure loc e) (py_or mt MAX_CONTEXT_LENGTH)),
   w ++ [request_of self key st]).
Proof.
  intros Hb Hc He. unfold turn. rewrite Hb.
  unfold bind, call_parse. rewrite Hc.
  destruct He as [-> | ->]; reflexivity.
Qed.

(** With a service that reports token counts, the completion tokens a
    conversation has used are never negative. *)
Lemma turns_completion_tokens_nonneg loc mt (n : nat) st w st' w' :
  reports_token_counts ->
  (0 <= completion_tokens_used st)%Z ->
  turns self n loc mt st w = (inr (Next st'), w') ->
  (0 <= completion_tokens_used st')%Z.
Proof.
  intros Hsvc. revert st w. induction n as [|n IH]; intros st w H0 H.
  - simpl in H. injection H as <- <-. exact H0.
  - simpl in H. unfold bind in H.
    destruct (turn self loc mt st w) as [[e|[pcr t|st1]] w1] eqn:E;
      try discriminate.
    apply (IH st1 w1); [|exact H].
    apply turn_Next_inv in E
      as (key & resp & u & c & parsed & fr & _ & Hc & Hu & _ & _ & _ & _ & _ & ->).
    simpl. pose proof (Hsvc _ _ _ _ _ _ Hc Hu). lia.
Qed.

(** In the full-disclosure schema the payload is a verdict. *)
Lemma data_included (fmt : ResponseFormat) (parsed : data_type fmt) :
  fmt = FullFilesIncludedResponse -> exists ce, data parsed = inr ce.
Proof. intros ->. simpl in *. eauto. Qed.

(** ** The run *)

Lemma check_proofs_loop_app (l1 l2 : list PropertyLocation) (rs : RunState) w :
  check_proofs_loop self (l1 ++ l2) rs w =
  match check_proofs_loop self l1 rs w with
  | (inl e, w') => (inl e, w')
  | (inr rs', w') => check_proofs_loop self l2 rs' w'
  end.
Proof.
  revert rs w. induction l1 as [|loc l1 IH]; intros rs w; [reflexivity|].
  simpl. unfold bind.
  destruct (check_proofs_step self rs loc w) as [[e|rs'] w']; [reflexivity|].
  apply IH.
Qed.

(** An exception in one conversation ends the run: no result list is
    produced. *)
Lemma check_proofs_abort (pre post : list PropertyLocation) loc
    (rs : RunState) w00 w0 e w' :
  _property_locations self = pre ++ loc :: post ->
  check_proofs_loop self pre initial_run w00 = (inr rs, w0) ->
  check_proof self loc (compute_max_tokens self (tokens_used rs)) w0
    = (inl e, w') ->
  check_proofs self w00 = (inl e, w').
Proof.
  intros Hlocs Hpre Hconv. unfold check_proofs. rewrite Hlocs.
  unfold bind at 1. rewrite check_proofs_loop_app, Hpre. simpl.
  unfold bind at 1. unfold check_proofs_step. unfold bind at 1.
  rewrite Hconv. reflexivity.
Qed.

(** Turns one after the other. *)
Lemma turns_add loc mt (n m : nat) st w :
  turns self (n + m) loc mt st w =
  match turns self n loc mt st w with
  | (inr (Next st'), w') => turns self m loc mt st' w'
  | r => r
  end.
Proof.
  revert st w. induction n as [|n IH]; intros st w; [reflexivity|].
  simpl. unfold bind.
  destruct (turn self loc mt st w) as [[e|[pcr t|st']] w'];
    try reflexivity.
  apply IH.
Qed.

(** After a turn that went on, [input_tokens_sent] is the input estimate of
    the request that turn sent, the last one so far. *)
Lemma turns_input_tokens_sent loc mt (n : nat) st0 w0 st w :
  turns self (S n) loc mt st0 w0 = (inr (Next st), w) ->
  exists req,
    last w = Some req
    /\ input_tokens_sent st = count_input_tokens (req_messages req).
Proof.
  replace (S n) with (n + 1) by lia. rewrite turns_add.
  destruct (turns self n loc mt st0 w0) as [[e|[pcr t|st1]] w1];
    try discriminate.
  simpl. unfold bind.
  destruct (turn self loc mt st1 w1) as [[e|[pcr t|st2]] w2] eqn:E;
    try discriminate.
  intros [= <- <-].
  apply turn_Next_inv in E
    as (key & resp & u & c & parsed & fr & _ & _ & _ & _ & _ & _ & _ & -> & ->).
  exists (request_of self key st1). split; [apply last_snoc | reflexivity].
Qed.

(** ** C2: the token limit *)

(** C2.  In a conversation with the ceiling [c], at the start of a turn the
    engine computes what remains: the ceiling less the completion tokens used
    so far less the input estimate of the messages, which counts the user
    messages only, each at its token count plus the envelope overhead.  When
    nothing remains the call is skipped (the requests sent are those sent
    before the turn) and the property ends with the Failure "Token limit
    reached", at a cost of the completion tokens used plus the input estimate
    of the last call made (0 when none was made).  At the first turn
    ([n = 0]) this is the case of an initial message whose estimate alone
    reaches the ceiling. *)
Theorem token_limit_reached_skips_call loc (c : Z) (n : nat) st w0 w :
  n < Z.to_nat (_max_messages self) ->
  turns self n loc (Some c) (initial_locals self loc) w0
    = (inr (Next st), w) ->
  (c - completion_tokens_used st - count_input_tokens (messages st) <= 0)%Z ->
  check_proof self loc (Some c) w0 =
  (inr (failure loc "Token limit reached",
        (completion_tokens_used st + input_tokens_sent st)%Z), w)
  /\ count_input_tokens (messages st) =
     foldr Z.add 0%Z
       ((fun m => match role m with
                  | user => (Z.of_nat (length (enc_encode (content m)))
                             + MESSAGE_ENVELOPE_TOKENS)%Z
                  | assistant => 0%Z
                  end) <$> messages st)
  /\ input_tokens_sent st =
     match n with
     | O => 0%Z
     | S _ =>
         match last w with
         | Some req => count_input_tokens (req_messages req)
         | None => 0%Z
         end
     end.
Proof.
  intros Hn Hturns Hrem. split; [|split].
  - rewrite (check_proof_at_turn loc (Some c) n st w0 w Hn Hturns).
    rewrite turn_limit; [reflexivity|].
    apply completion_budget_None. eauto.
  - apply count_input_tokens_user_only.
  - destruct n as [|n].
    + simpl in Hturns. injection Hturns as <- <-. reflexivity.
    + destruct (turns_input_tokens_sent _ _ _ _ _ _ _ Hturns)
        as (req & -> & ->). reflexivity.
Qed.

(** ** C6: a file request that discloses nothing *)

(** C6.  When the service answers a turn with a file request and none of the
    requested files is a known file not shown yet, the conversation raises
    [RuntimeError("Invalid response")]; the run that contains it raises the
    same and returns no results, so no Failure is recorded for the
    property. *)
Theorem empty_disclosure_aborts_run loc mt (n : nat) st w0 w key
    (resp : ParsedChatCompletion (response_format self)) u c parsed fr :
  n < Z.to_nat (_max_messages self) ->
  turns self n loc mt (initial_locals self loc) w0 = (inr (Next st), w) ->
  completion_budget mt st (count_input_tokens (messages st)) = Some key ->
  completions_parse w (response_format self) key (messages st) = inr resp ->
  usage resp = Some u ->
  message_content resp = Some c ->
  message_parsed resp = Some parsed ->
  data parsed = inl fr ->
  resolve_files_requested (all_files self) (files_requested fr)
    (files_shown st) = [] ->
  check_proof self loc mt w0 =
  (inl (RuntimeError "Invalid response"), w ++ [request_of self key st])
  /\ forall (pre post : list PropertyLocation) (rs : RunState) w00,
       _property_locations self = pre ++ loc :: post ->
       check_proofs_loop self pre initial_run w00 = (inr rs, w0) ->
       mt = compute_max_tokens self (tokens_used rs) ->
       check_proofs self w00 =
       (inl (RuntimeError "Invalid response"),
        w ++ [request_of self key st]).
Proof.
  intros Hn Hturns Hb Hc Hu Hm Hp Hd Hr.
  assert (check_proof self loc mt w0 =
          (inl (RuntimeError "Invalid response"),
           w ++ [request_of self key st])) as Hconv.
  { rewrite (check_proof_at_turn loc mt n st w0 w Hn Hturns).
    now rewrite (turn_empty_disclosure loc mt st w key resp u c parsed fr). }
  split; [exact Hconv|].
  intros pre post rs w00 Hlocs Hpre ->.
  exact (check_proofs_abort pre post loc rs w00 w0 _ _ Hlocs Hpre Hconv).
Qed.

(** ** C7: the turn bound *)

(** C7.  A conversation sends at most [max_messages] requests, one per turn.
    When [max_messages] turns have gone by and each went on to a next turn,
    the conversation raises [TimeoutError], and so does the run, which
    returns no results. *)
Theorem turn_bound_exhausted_aborts_run loc mt w :
  (0 <= _max_messages self)%Z ->
  (exists reqs,
     snd (check_proof self loc mt w) = w ++ reqs
     /\ (Z.of_nat (length reqs) <= _max_messages self)%Z)
  /\ forall st w',
       turns self (Z.to_nat (_max_messages self)) loc mt
         (initial_locals self loc) w = (inr (Next st), w') ->
       check_proof self loc mt w =
       (inl (TimeoutError "No result after max messages"), w')
       /\ forall (pre post : list PropertyLocation) (rs : RunState) w00,
            _property_locations self = pre ++ loc :: post ->
            check_proofs_loop self pre initial_run w00 = (inr rs, w) ->
            mt = compute_max_tokens self (tokens_used rs) ->
            check_proofs self w00 =
            (inl (TimeoutError "No result after max messages"), w').
Proof.
  intros Hmax. split.
  - destruct (check_proof_loop_world loc mt (Z.to_nat (_max_messages self))
                (initial_locals self loc) w) as (reqs & H & L).
    exists reqs. split; [exact H | lia].
  - intros st w' Hturns.
    assert (check_proof self loc mt w =
            (inl (TimeoutError "No result after max messages"), w'))
      as Hconv.
    { unfold check_proof.
      rewrite <- (Nat.add_0_r (Z.to_nat (_max_messages self))).
      rewrite check_proof_loop_turns, Hturns. reflexivity. }
    split; [exact Hconv|].
    intros pre post rs w00 Hlocs Hpre ->.
    exact (check_proofs_abort pre post loc rs w00 w _ _ Hlocs Hpre Hconv).
Qed.

(** ** C8: a call the service rejects or cuts short *)

(** C8.  When the service raises [BadRequestError] or
    [LengthFinishReasonError] at a call, the property ends with a Failure
    that carries the text of the exception, and the cost the run adds to its
    total is the ceiling of the conversation when it has one and
    [MAX_CONTEXT_LENGTH] when it has none. *)
Theorem rejected_call_costs_ceiling loc mt (n : nat) st w0 w key exc e :
  reports_token_counts ->
  n < Z.to_nat (_max_messages self) ->
  turns self n loc mt (initial_locals self loc) w0 = (inr (Next st), w) ->
  completion_budget mt st (count_input_tokens (messages st)) = Some key ->
  completions_parse w (response_format self) key (messages st) = inl exc ->
  exc = BadRequestError e \/ exc = LengthFinishReasonError e ->
  let cost := match mt with Some c => c | None => MAX_CONTEXT_LENGTH end in
  check_proof self loc mt w0 =
  (inr (failure loc e, cost), w ++ [request_of self key st])
  /\ forall rs : RunState,
       mt = compute_max_tokens self (tokens_used rs) ->
       check_proofs_step self rs loc w0 =
       (inr {| ret := ret rs ++ [failure loc e];
               tokens_used := (tokens_used rs + cost)%Z;
               conversations := conversations rs ++ [(mt, cost)] |},
        w ++ [request_of self key st]).
Proof.
  intros Hsvc Hn Hturns Hb Hc He cost.
  assert (py_or mt MAX_CONTEXT_LENGTH = cost) as Hcost.
  { unfold cost, py_or. destruct mt as [c|]; [|reflexivity].
    apply completion_budget_Some in Hb as [_ Hpos].
    pose proof (count_input_tokens_nonneg (messages st)).
    assert (0 <= completion_tokens_used st)%Z.
    { apply (turns_completion_tokens_nonneg loc (Some c) n
               (initial_locals self loc) w0 st w Hsvc); [simpl; lia|].
      exact Hturns. }
    destruct (Z.eqb_spec c 0); [lia | reflexivity]. }
  assert (check_proof self loc mt w0 =
          (inr (failure loc e, cost), w ++ [request_of self key st]))
    as Hconv.
  { rewrite (check_proof_at_turn loc mt n st w0 w Hn Hturns).
    rewrite (turn_rejected loc mt st w key exc e Hb Hc He).
    now rewrite Hcost. }
  split; [exact Hconv|].
  intros rs Hmt. unfold check_proofs_step, bind. rewrite <- Hmt, Hconv.
  reflexivity.
Qed.

(** ** C9: full disclosure *)

(** C9.  With [_exclude_full_files] false the schema of the response has a
    verdict for its payload and nothing else: no turn goes on to a next turn,
    a completion that has usage, content and a parsed payload ends the
    conversation with its verdict, and a conversation sends at most one
    request, whose only message is the initial one. *)
Theorem full_disclosure_single_call loc mt :
  _exclude_full_files self = false ->
  (forall st w st' w', turn self loc mt st w <> (inr (Next st'), w'))
  /\ (forall st w key (resp : ParsedChatCompletion (response_format self))
             u c parsed,
        completion_budget mt st (count_input_tokens (messages st))
          = Some key ->
        completions_parse w (response_format self) key (messages st)
          = inr resp ->
        usage resp = Some u ->
        message_content resp = Some c ->
        message_parsed resp = Some parsed ->
        exists ce,
          data parsed = inr ce
          /\ turn self loc mt st w =
             (inr (Return (verdict loc ce)
                     (completion_tokens_used st + completion_tokens u
                      + count_input_tokens (messages st))%Z),
              w ++ [request_of self key st]))
  /\ (forall w, exists reqs,
        snd (check_proof self loc mt w) = w ++ reqs
        /\ length reqs <= 1
        /\ Forall (fun r =>
                     req_response_format r = FullFilesIncludedResponse
                     /\ req_messages r =
                        [{| role := user;
                            content := _build_initial_message self loc |}])
             reqs).
Proof.
  intros Hfull.
  assert (response_format self = FullFilesIncludedResponse) as Hfmt
    by (unfold response_format; now rewrite Hfull).
  assert (forall st w st' w',
            turn self loc mt st w <> (inr (Next st'), w')) as Hstop.
  { intros st w st' w' H.
    apply turn_Next_inv in H
      as (key & resp & u & c & parsed & fr & _ & _ & _ & _ & _ & Hd & _).
    destruct (data_included _ parsed Hfmt) as [ce Hce]. congruence. }
  split; [exact Hstop|]. split.
  - intros st w key resp u c parsed Hb Hc Hu Hm Hp.
    destruct (data_included _ parsed Hfmt) as [ce Hce].
    exists ce. split; [exact Hce|].
    unfold turn. rewrite Hb. unfold bind, call_parse. rewrite Hc.
    unfold handle_response. rewrite Hu, Hm, Hp, Hce. reflexivity.
  - intros w. unfold check_proof.
    destruct (Z.to_nat (_max_messages self)) as [|m].
    { exists []. simpl. rewrite app_nil_r. auto. }
    simpl. unfold bind.
    destruct (completion_budget mt (initial_locals self loc)
                (count_input_tokens (messages (initial_locals self loc))))
      as [key|] eqn:Hb.
    + pose proof (turn_call loc mt _ w key Hb) as Hw.
      pose proof (Hstop (initial_locals self loc) w) as Hs.
      exists [request_of self key (initial_locals self loc)].
      destruct (turn self loc mt (initial_locals self loc) w)
        as [[e|[pcr t|st']] w1]; simpl in Hw; subst w1.
      * repeat split; [simpl; lia|]. repeat constructor. exact Hfmt.
      * repeat split; [simpl; lia|]. repeat constructor. exact Hfmt.
      * exfalso. exact (Hs _ _ eq_refl).
    + rewrite (turn_limit loc mt _ w Hb). exists []. simpl.
      rewrite app_nil_r. auto.
Qed.

(** ** C10: a conversation that ends before its first call *)

(** C10.  A conversation with a ceiling that returns without having sent a
    request has ended at its first turn with the Failure "Token limit
    reached", and its cost is 0: the input estimate it adds is that of the
    last call made, and there was none.  So once the total budget of a run is
    used up, each further property gets that Failure, sends nothing, and
    leaves [tokens_used] as it was. *)
Theorem first_turn_limit_costs_nothing loc (c : Z) w :
  (forall pcr cost,
     check_proof self loc (Some c) w = (inr (pcr, cost), w) ->
     pcr = failure loc "Token limit reached" /\ cost = 0%Z)
  /\ (forall (rs : RunState) (total : Z),
        (0 < _max_messages self)%Z ->
        _max_tokens_total self = Some total ->
        (total <= tokens_used rs)%Z ->
        check_proofs_step self rs loc w =
        (inr {| ret := ret rs ++ [failure loc "Token limit reached"];
                tokens_used := tokens_used rs;
                conversations :=
                  conversations rs
                    ++ [(compute_max_tokens self (tokens_used rs), 0%Z)] |},
         w)).
Proof.
  split.
  - intros pcr cost. unfold check_proof.
    destruct (Z.to_nat (_max_messages self)) as [|m]; [discriminate|].
    simpl. unfold bind.
    destruct (completion_budget (Some c) (initial_locals self loc)
                (count_input_tokens (messages (initial_locals self loc))))
      as [key|] eqn:Hb.
    + pose proof (turn_call loc (Some c) _ w key Hb) as Hw.
      destruct (turn self loc (Some c) (initial_locals self loc) w)
        as [[e|[pcr' t|st']] w1]; simpl in Hw; subst w1;
        [discriminate | |].
      * intros [= _ _ H]. apply (f_equal length) in H.
        rewrite length_app in H. simpl in H. lia.
      * intros H.
        destruct (check_proof_loop_world loc (Some c) m st'
                    (w ++ [request_of self key (initial_locals self loc)]))
          as (reqs & Hreqs & _).
        rewrite H in Hreqs. simpl in Hreqs.
        apply (f_equal length) in Hreqs.
        rewrite !length_app in Hreqs. simpl in Hreqs. lia.
    + rewrite (turn_limit loc (Some c) _ w Hb). simpl.
      intros [= <- <-]. split; reflexivity.
  - intros rs total Hmax Htotal Hused.
    unfold check_proofs_step, bind.
    assert (exists c', compute_max_tokens self (tokens_used rs) = Some c'
                       /\ (c' <= 0)%Z) as (c' & Hc' & Hle).
    { unfold compute_max_tokens. rewrite Htotal.
      destruct (_max_tokens_per_property self) as [per|];
        eexists; (split; [reflexivity | lia]). }
    rewrite Hc'. unfold check_proof.
    destruct (Z.to_nat (_max_messages self)) as [|m] eqn:Hm; [lia|].
    simpl. unfold bind. rewrite turn_limit.
    + simpl. rewrite Z.add_0_r. reflexivity.
    + apply completion_budget_None. exists c'. split; [reflexivity|].
      pose proof (count_input_tokens_nonneg
                    (messages (initial_locals self loc))).
      simpl completion_tokens_used. lia.
Qed.

(** ** C1: the ceiling of each conversation *)

Lemma compute_max_tokens_spec (used : Z) :
  compute_max_tokens self used =
  ceiling_spec (_max_tokens_total self) (_max_tokens_per_property self)
    used MAX_CONTEXT_LENGTH.
Proof.
  unfold compute_max_tokens, ceiling_spec.
  destruct (_max_tokens_per_property self), (_max_tokens_total self);
    try reflexivity.
  f_equal. lia.
Qed.

Lemma tokens_reported_app (cs : list (option Z * Z)) (x : option Z * Z) :
  tokens_reported (cs ++ [x]) = (tokens_reported cs + snd x)%Z.
Proof.
  unfold tokens_reported. rewrite fmap_app, foldr_app. cbn.
  induction (snd <$> cs) as [|y l IH]; cbn; lia.
Qed.

Lemma check_proofs_step_inv (rs rs' : RunState) loc w w' :
  check_proofs_step self rs loc w = (inr rs', w') ->
  exists pcr cost,
    check_proof self loc (compute_max_tokens self (tokens_used rs)) w
      = (inr (pcr, cost), w')
    /\ rs' = {| ret := ret rs ++ [pcr];
                tokens_used := (tokens_used rs + cost)%Z;
                conversations :=
                  conversations rs
                    ++ [(compute_max_tokens self (tokens_used rs), cost)] |}.
Proof.
  unfold check_proofs_step, bind.
  destruct (check_proof self loc (compute_max_tokens self (tokens_used rs)) w)
    as [[e|[pcr cost]] w1]; [discriminate|].
  intros [= <- <-]. eauto.
Qed.

(** The record of the conversations is only added to. *)
Lemma check_proofs_loop_extends (locs : list PropertyLocation)
    (rs rs' : RunState) w w' :
  check_proofs_loop self locs rs w = (inr rs', w') ->
  exists tl, conversations rs' = conversations rs ++ tl.
Proof.
  revert rs w. induction locs as [|loc locs IH]; intros rs w H.
  - simpl in H. injection H as <- <-. exists []. now rewrite app_nil_r.
  - simpl in H. unfold bind in H.
    destruct (check_proofs_step self rs loc w) as [[e|rs1] w1] eqn:E;
      [discriminate|].
    apply check_proofs_step_inv in E as (pcr & cost & _ & ->).
    destruct (IH _ _ H) as [tl Htl]. simpl in Htl.
    eexists. rewrite Htl, <- app_assoc. reflexivity.
Qed.

(** What the run has recorded after some of the properties: one entry per
    property, each with the ceiling the rule gives for the costs reported
    before it, and a total that is the sum of the costs reported. *)
Lemma check_proofs_loop_invariant (locs : list PropertyLocation)
    (rs rs' : RunState) w w' :
  check_proofs_loop self locs rs w = (inr rs', w') ->
  tokens_used rs = tokens_reported (conversations rs) ->
  tokens_used rs' = tokens_reported (conversations rs')
  /\ length (conversations rs')
     = (length (conversations rs) + length locs)%nat
  /\ forall k ce cost,
       length (conversations rs) <= k ->
       conversations rs' !! k = Some (ce, cost) ->
       ce = ceiling_spec (_max_tokens_total self)
              (_max_tokens_per_property self)
              (tokens_reported (take k (conversations rs')))
              MAX_CONTEXT_LENGTH.
Proof.
  revert rs w. induction locs as [|loc locs IH]; intros rs w H Hinv.
  - simpl in H. injection H as <- <-. split; [exact Hinv|].
    split; [simpl; lia|]. intros k ce cost Hk Hlk.
    apply lookup_lt_Some in Hlk. lia.
  - simpl in H. unfold bind in H.
    destruct (check_proofs_step self rs loc w) as [[e|rs1] w1] eqn:E;
      [discriminate|].
    apply check_proofs_step_inv in E as (pcr & cost1 & _ & ->).
    destruct (check_proofs_loop_extends _ _ _ _ _ H) as [tl Htl].
    destruct (IH _ _ H) as (Hsum & Hlen & Hceil).
    { simpl. rewrite tokens_reported_app. simpl. lia. }
    simpl in Hlen, Hceil, Htl. rewrite length_app in Hlen, Hceil.
    simpl in Hlen, Hceil.
    split; [exact Hsum|]. split; [simpl; lia|].
    intros k ce cost Hk Hlk.
    destruct (decide (k = length (conversations rs))) as [->|Hne].
    + rewrite Htl, <- app_assoc in Hlk |- *.
      rewrite lookup_app_r, Nat.sub_diag in Hlk by lia.
      injection Hlk as <- <-.
      rewrite take_app_length, compute_max_tokens_spec, Hinv. reflexivity.
    + apply (Hceil k ce cost); [lia | exact Hlk].
Qed.

(** C1.  Before each conversation of a run the engine computes the ceiling
    of the budget rule: none when neither limit is set, else the smaller of
    the limits that are set and of the hard context cap, the total being
    taken less the tokens used so far.  The tokens used so far are the sum of
    the costs the conversations before it reported, and the cost of a
    conversation is added when it has returned, before the next ceiling is
    computed. *)
Theorem ceiling_of_each_conversation (pre : list PropertyLocation) loc
    (rs : RunState) w0 w :
  check_proofs_loop self pre initial_run w0 = (inr rs, w) ->
  let used := tokens_reported (conversations rs) in
  let ceiling :=
    ceiling_spec (_max_tokens_total self) (_max_tokens_per_property self)
      used MAX_CONTEXT_LENGTH in
  tokens_used rs = used
  /\ length (conversations rs) = length pre
  /\ (forall k ce cost,
        conversations rs !! k = Some (ce, cost) ->
        ce = ceiling_spec (_max_tokens_total self)
               (_max_tokens_per_property self)
               (tokens_reported (take k (conversations rs)))
               MAX_CONTEXT_LENGTH)
  /\ compute_max_tokens self (tokens_used rs) = ceiling
  /\ check_proofs_step self rs loc w =
     match check_proof self loc ceiling w with
     | (inl e, w') => (inl e, w')
     | (inr (pcr, cost), w') =>
         (inr {| ret := ret rs ++ [pcr];
                 tokens_used := (used + cost)%Z;
                 conversations := conversations rs ++ [(ceiling, cost)] |},
          w')
     end.
Proof.
  intros H used ceiling.
  destruct (check_proofs_loop_invariant pre initial_run rs w0 w H eq_refl)
    as (Hsum & Hlen & Hceil).
  assert (compute_max_tokens self (tokens_used rs) = ceiling) as Hc
    by (rewrite compute_max_tokens_spec, Hsum; reflexivity).
  split; [exact Hsum|]. split; [exact Hlen|]. split.
  { intros k ce cost. apply Hceil. simpl. lia. }
  split; [exact Hc|].
  unfold check_proofs_step, bind. rewrite Hc.
  destruct (check_proof self loc ceiling w) as [[e|[pcr cost]] w'];
    [reflexivity|].
  simpl. fold used. rewrite Hsum. reflexivity.
Qed.

End Conversation.

(** ** Disclosure *)

Section Disclosure.

Context {ext : Externals}.
Variable self : Linter.

Implicit Types (loc : PropertyLocation) (mt : option Z).
Implicit Types (st : Locals) (w : World).

(** A turn that goes on has disclosed files that are known and were not in
    [files_shown], each once; they are added to [files_shown], and the
    message that follows inlines them and no others. *)
Lemma turn_discloses_fresh loc mt st w st' w' :
  turn self loc mt st w = (inr (Next st'), w') ->
  exists (files : list Path) (c : string),
    files <> [] /\ NoDup files
    /\ (forall p, p ∈ files -> p ∈ all_files self /\ p ∉ files_shown st)
    /\ files_shown st' = files_shown st ∪ list_to_set files
    /\ messages st' =
       messages st ++ [{| role := assistant; content := c |};
                       {| role := user;
                          content := _build_subsequent_message files |}].
Proof.
  intros H.
  apply turn_Next_inv in H
    as (key & resp & u & c & parsed & fr & _ & _ & _ & _ & _ & _ & Hne & _ & ->).
  eexists _, c. split; [exact Hne|].
  split; [apply NoDup_resolve_files_requested|].
  split; [|split; [reflexivity|]].
  - intros p Hp.
    destruct (elem_of_resolve_files_requested _ _ _ _ Hp) as (? & _ & ?).
    auto.
  - simpl. now rewrite <- app_assoc.
Qed.

(** The set of files shown only grows, and the messages are only added
    to. *)
Lemma turns_monotone loc mt (n : nat) st w st' w' :
  turns self n loc mt st w = (inr (Next st'), w') ->
  files_shown st ⊆ files_shown st'
  /\ exists tl, messages st' = messages st ++ tl.
Proof.
  revert st w. induction n as [|n IH]; intros st w H.
  - simpl in H. injection H as <- <-. split; [reflexivity|].
    exists []. now rewrite app_nil_r.
  - simpl in H. unfold bind in H.
    destruct (turn self loc mt st w) as [[e|[pcr t|st1]] w1] eqn:E;
      try discriminate.
    destruct (turn_discloses_fresh _ _ _ _ _ _ E)
      as (files & c & _ & _ & _ & Hshown & Hmsgs).
    destruct (IH _ _ H) as (Hsub & tl & Htl).
    split.
    + transitivity (files_shown st1); [|exact Hsub].
      rewrite Hshown. apply union_subseteq_l.
    + eexists. rewrite Htl, Hmsgs, <- app_assoc. reflexivity.
Qed.

(** Every request of a conversation asks for the schema of the run and
    starts with the messages the conversation started with. *)
Lemma check_proof_loop_requests loc mt (n : nat) st w :
  exists reqs,
    snd (check_proof_loop self n loc mt st w) = w ++ reqs
    /\ Forall (fun r => req_response_format r = response_format self
                        /\ exists tl, req_messages r = messages st ++ tl)
         reqs.
Proof.
  revert st w. induction n as [|n IH]; intros st w.
  - exists []. simpl. rewrite app_nil_r. auto.
  - simpl. unfold bind.
    destruct (completion_budget mt st (count_input_tokens (messages st)))
      as [key|] eqn:Hb.
    + pose proof (turn_call self loc mt st w key Hb) as Hw.
      assert (req_response_format (request_of self key st)
              = response_format self
              /\ exists tl, req_messages (request_of self key st)
                            = messages st ++ tl) as Hreq.
      { split; [reflexivity|]. exists []. simpl. now rewrite app_nil_r. }
      destruct (turn self loc mt st w) as [[e|[pcr t|st1]] w1] eqn:E;
        simpl in Hw; subst w1.
      * exists [request_of self key st]. split; [reflexivity|].
        constructor; [exact Hreq | constructor].
      * exists [request_of self key st]. split; [reflexivity|].
        constructor; [exact Hreq | constructor].
      * destruct (IH st1 (w ++ [request_of self key st]))
          as (reqs & Hreqs & Hall).
        destruct (turn_discloses_fresh _ _ _ _ _ _ E)
          as (files & c & _ & _ & _ & _ & Hmsgs).
        exists (request_of self key st :: reqs).
        rewrite Hreqs, <- app_assoc. split; [reflexivity|].
        constructor; [exact Hreq|].
        eapply Forall_impl; [exact Hall|].
        intros r (Hf & tl & Htl). split; [exact Hf|].
        eexists. rewrite Htl, Hmsgs, <- app_assoc. reflexivity.
    + rewrite (turn_limit self loc mt st w Hb). exists []. simpl.
      rewrite app_nil_r. auto.
Qed.

(** Every request of a run asks for the schema of the run and starts with
    the initial message of one of its properties. *)
Lemma check_proofs_loop_requests (locs : list PropertyLocation)
    (rs : RunState) w :
  exists reqs,
    snd (check_proofs_loop self locs rs w) = w ++ reqs
    /\ Forall (fun r =>
                 req_response_format r = response_format self
                 /\ exists loc tl,
                      loc ∈ locs
                      /\ req_messages r =
                         {| role := user;
                            content := _build_initial_message self loc |}
                           :: tl)
         reqs.
Proof.
  revert rs w. induction locs as [|loc locs IH]; intros rs w.
  - exists []. simpl. rewrite app_nil_r. auto.
  - simpl. unfold bind at 1. unfold check_proofs_step, bind.
    destruct (check_proof_loop_requests loc
                (compute_max_tokens self (tokens_used rs))
                (Z.to_nat (_max_messages self)) (initial_locals self loc) w)
      as (r1 & H1 & A1).
    fold (check_proof self loc (compute_max_tokens self (tokens_used rs)) w)
      in H1.
    assert (Forall (fun r =>
                 req_response_format r = response_format self
                 /\ exists loc0 tl,
                      loc0 ∈ loc :: locs
                      /\ req_messages r =
                         {| role := user;
                            content := _build_initial_message self loc0 |}
                           :: tl) r1) as A1'.
    { eapply Forall_impl; [exact A1|]. intros r (Hf & tl & Htl).
      split; [exact Hf|]. exists loc, tl. split; [left | exact Htl]. }
    destruct (check_proof self loc (compute_max_tokens self (tokens_used rs)) w)
      as [[e|[pcr cost]] w1]; simpl in H1; subst w1.
    + exists r1. split; [reflexivity | exact A1'].
    + simpl.
      match goal with
      | |- context [check_proofs_loop self locs ?rs1 ?w1] =>
          destruct (IH rs1 w1) as (r2 & H2 & A2)
      end.
      exists (r1 ++ r2). rewrite H2, <- app_assoc. split; [reflexivity|].
      apply Forall_app. split; [exact A1'|].
      eapply Forall_impl; [exact A2|]. intros r (Hf & loc0 & tl & Hin & Htl).
      split; [exact Hf|]. exists loc0, tl. split; [now right | exact Htl].
Qed.

(** The file of the property is not recorded as shown when the conversation
    starts: a request for it is resolved to it. *)
Lemma target_file_not_recorded loc (s : string) :
  rel_path loc ∈ all_files self ->
  Path_of_str s = rel_path loc ->
  resolve_files_requested (all_files self) [s]
    (files_shown (initial_locals self loc)) = [rel_path loc].
Proof.
  intros Hknown Hs. unfold resolve_files_requested.
  assert ((all_files self ∩ list_to_set (Path_of_str <$> [s]))
            ∖ files_shown (initial_locals self loc)
          = ({[rel_path loc]} : gset Path)) as ->.
  { apply set_eq. intros p. simpl. rewrite Hs.
    rewrite elem_of_difference, elem_of_intersection, elem_of_union,
      !elem_of_singleton.
    split.
    - intros [[_ [-> | Hempty]] _]; [reflexivity|].
      now apply not_elem_of_empty in Hempty.
    - intros ->. split; [split; [exact Hknown | now left]|].
      apply not_elem_of_empty. }
  unfold sorted_paths. rewrite elements_singleton. reflexivity.
Qed.

End Disclosure.

(** ** C5: the disclosure decision *)

(** [len] counts characters: a text of [n] code points has length [n],
    however many bytes hold it. *)
Lemma len_app (s1 s2 : string) : len (s1 +:+ s2) = len s1 + len s2.
Proof.
  induction s1 as [|c s1 IH]; [reflexivity|].
  simpl. rewrite IH. lia.
Qed.

Lemma len_utf8_char (cp : N) : len (utf8_char cp) = 1.
Proof.
  unfold utf8_char.
  destruct (cp <? 128)%N; [reflexivity|].
  destruct (cp <? 2048)%N; [reflexivity|].
  destruct (cp <? 65536)%N; reflexivity.
Qed.

Lemma len_utf8 (cps : list N) : len (utf8 cps) = length cps.
Proof.
  induction cps as [|cp cps IH]; [reflexivity|].
  simpl. now rewrite len_app, len_utf8_char, IH.
Qed.

(** The bytes of [a], of e with an acute accent, of the euro sign and of a
    character outside the basic plane; the second text has one character
    and two bytes. *)
Example utf8_bytes :
  utf8 [97%N] = "a"
  /\ utf8 [233%N] = String (ascii_of_nat 195) (String (ascii_of_nat 169) EmptyString)
  /\ utf8 [8364%N]
     = String (ascii_of_nat 226)
         (String (ascii_of_nat 130) (String (ascii_of_nat 172) EmptyString))
  /\ utf8 [128512%N]
     = String (ascii_of_nat 240)
         (String (ascii_of_nat 159)
            (String (ascii_of_nat 152)
               (String (ascii_of_nat 128) EmptyString)))
  /\ len (utf8 [233%N]) = 1
  /\ String.length (utf8 [233%N]) = 2.
Proof. repeat split; vm_compute; reflexivity. Qed.

(** C5.  [__init__] decides once, from the total length of the documents
    in characters, which of the two message shapes the run uses: the sum
    over the files of [len] of the text of the file, which for texts given
    by their code points is the number of those, is compared with the
    threshold.  At or above the threshold the schema of every request allows
    a file request and every initial message is a text that does not depend
    on the contents of the files, around the formatted contents of the file
    of its property: whatever the files hold and however they are
    formatted, no other file is inlined.  Below the threshold the payload of
    the schema is a verdict and every initial message is such a text around
    the formatted contents of all the files.  Every request of the run asks
    for that schema and starts with such an initial message. *)
Theorem disclosure_decided_by_total_length `{Externals}
    (rel_paths : list Path) (max_messages threshold max_files : Z)
    (python_deps : option string) (total per_property : option Z)
    (self : Linter) :
  Linter_init rel_paths max_messages threshold max_files python_deps
    total per_property = inr self ->
  let total_chars :=
    foldr Z.add 0%Z ((fun p => Z.of_nat (len (read_text p))) <$> rel_paths) in
  (forall documents : Path -> list N,
     (forall p, p ∈ rel_paths -> read_text p = utf8 (documents p)) ->
     total_chars =
     foldr Z.add 0%Z
       ((fun p => Z.of_nat (length (documents p))) <$> rel_paths))
  /\ _exclude_full_files self = bool_decide (threshold <= total_chars)%Z
  /\ ((threshold <= total_chars)%Z ->
        response_format self = FullFilesExcludedResponse
        /\ forall loc,
             let pre := incremental_prompt self loc in
             let post := message_end in
             forall ext' : Externals,
               _build_initial_message (ext := ext') self loc =
               pre
                 +:+ format_file (Externals := ext')
                       (read_text (Externals := ext') (rel_path loc))
                       (rel_path loc)
                 +:+ post)
  /\ ((total_chars < threshold)%Z ->
        response_format self = FullFilesIncludedResponse
        /\ data_type (response_format self) = CorrectnessExplanation
        /\ forall loc,
             let pre := full_prompt self loc in
             let post := message_end in
             forall ext' : Externals,
               _build_initial_message (ext := ext') self loc =
               pre
                 +:+ join nl
                       ((fun p =>
                           format_file (Externals := ext')
                             (read_text (Externals := ext') p) p)
                          <$> rel_paths)
                 +:+ post)
  /\ forall w, exists reqs,
       snd (check_proofs self w) = w ++ reqs
       /\ Forall (fun r =>
                    req_response_format r = response_format self
                    /\ exists loc tl,
                         loc ∈ _property_locations self
                         /\ req_messages r =
                            {| role := user;
                               content := _build_initial_message self loc |}
                              :: tl)
            reqs.
Proof.
  intros Hinit total_chars. unfold Linter_init in Hinit.
  destruct (max_files <? Z.of_nat (length rel_paths))%Z; [discriminate|].
  injection Hinit as <-.
  unfold response_format, _build_initial_message. simpl.
  change (total_length rel_paths) with total_chars.
  split; [|split; [|split; [|split]]].
  - intros documents Hdocs. unfold total_chars. clear -Hdocs.
    induction rel_paths as [|p ps IH]; [reflexivity|].
    cbn. rewrite (Hdocs p) by now left. rewrite len_utf8. f_equal.
    apply IH. intros q Hq. apply Hdocs. now right.
  - destruct (Z.leb_spec threshold total_chars).
    + now rewrite bool_decide_eq_true_2.
    + rewrite bool_decide_eq_false_2; [reflexivity | lia].
  - intros Hge. apply Z.leb_le in Hge. rewrite Hge. simpl. auto.
  - intros Hlt. apply Z.leb_gt in Hlt. rewrite Hlt. simpl. auto.
  - intros w.
    match goal with
    | |- context [check_proofs ?s w] =>
        destruct (check_proofs_loop_requests s (_property_locations s)
                    initial_run w) as (reqs & Hreqs & Hall)
    end.
    exists reqs. split; [|exact Hall].
    unfold check_proofs, bind.
    match type of Hreqs with
    | snd ?x = _ => destruct x as [[e|rs] w1]
    end; exact Hreqs.
Qed.

(** ** The examples *)

Lemma scripted_reports_token_counts (script : list Reply) :
  Forall reply_tokens_nonneg script ->
  reports_token_counts (H := scripted script).
Proof.
  intros Hall w fmt key msgs resp u Hc Hu. simpl in Hc.
  assert (reply_tokens_nonneg
            (nth (length w) script (ReplyVerdict 10 correct))) as Hr.
  { destruct (nth_in_or_default (length w) script (ReplyVerdict 10 correct))
      as [Hin | ->]; [|simpl; lia].
    rewrite Forall_forall in Hall. apply Hall. now apply list_elem_of_In. }
  destruct (nth (length w) script (ReplyVerdict 10 correct)) as [e|t c|t fs];
    simpl in Hc, Hr; [discriminate| |].
  - injection Hc as <-. simpl in Hu. injection Hu as <-. exact Hr.
  - injection Hc as <-. simpl in Hu. injection Hu as <-. exact Hr.
Qed.

(** A total of 5000 and a per-property limit of 3000: after two properties
    that cost 1343 and 1347 tokens the third gets what is left of the total,
    2310. *)
Lemma ceiling_of_each_conversation_witness :
  compute_max_tokens linter_budgets
    (tokens_used
       (run_after (H := service_verdict) linter_budgets
          (take 2 (_property_locations linter_budgets)) []))
  = ceiling_spec (Some 5000%Z) (Some 3000%Z) (1343 + 1347)%Z
      MAX_CONTEXT_LENGTH.
Proof.
  refine (proj1 (proj2 (proj2 (proj2
    (ceiling_of_each_conversation (ext := service_verdict) linter_budgets
       (take 2 (_property_locations linter_budgets)) demo_location
       (run_after (H := service_verdict) linter_budgets
          (take 2 (_property_locations linter_budgets)) [])
       []
       (snd (check_proofs_loop (ext := service_verdict) linter_budgets
               (take 2 (_property_locations linter_budgets)) initial_run []))
       _))))).
  vm_compute. reflexivity.
Defined.

(** A per-property limit of 100 and the hard cap of 100000 give the ceiling
    100; the initial message alone is estimated above it, and the property
    fails without a call. *)
Lemma token_limit_reached_skips_call_witness :
  compute_max_tokens linter_small_budget 0 = Some 100%Z
  /\ check_proof (ext := service_verdict) linter_small_budget demo_location
       (Some 100%Z) []
     = (inr (failure demo_location "Token limit reached", 0%Z), []).
Proof.
  split; [reflexivity|].
  refine (proj1
    (token_limit_reached_skips_call (ext := service_verdict)
       linter_small_budget demo_location 100 0
       (initial_locals (ext := service_verdict) linter_small_budget
          demo_location) [] [] _ _ _)).
  - vm_compute. lia.
  - reflexivity.
  - now vm_compute.
Defined.

(** [lib/b.py] was shown at the first turn; a request for it again and for a
    file that does not exist discloses nothing, and the conversation
    raises. *)
Lemma empty_disclosure_aborts_run_witness :
  check_proof (ext := service_asks_nothing_new) (linter_incremental 50)
    demo_location None []
  = (inl (RuntimeError "Invalid response"),
     world_after (H := service_asks_nothing_new) (linter_incremental 50) 1
       demo_location None []
     ++ [request_of (H := service_asks_nothing_new) (linter_incremental 50)
           None
           (locals_after (H := service_asks_nothing_new)
              (linter_incremental 50) 1 demo_location None [])]).
Proof.
  refine (proj1
    (empty_disclosure_aborts_run (ext := service_asks_nothing_new)
       (linter_incremental 50) demo_location None 1
       (locals_after (H := service_asks_nothing_new) (linter_incremental 50)
          1 demo_location None [])
       []
       (world_after (H := service_asks_nothing_new) (linter_incremental 50)
          1 demo_location None [])
       None
       (Build_ParsedChatCompletion FullFilesExcludedResponse
          (Some {| completion_tokens := 7 |}) (Some "files")
          (Some (inl {| files_requested :=
                          ["lib/b.py"; "missing.py"; "lib/b.py"] |})))
       {| completion_tokens := 7 |} "files"
       (inl {| files_requested := ["lib/b.py"; "missing.py"; "lib/b.py"] |}
          : data_type FullFilesExcludedResponse)
       {| files_requested := ["lib/b.py"; "missing.py"; "lib/b.py"] |}
       _ _ _ _ _ _ _ _ _)).
  - vm_compute. lia.
  - vm_compute. reflexivity.
  - reflexivity.
  - vm_compute. reflexivity.
  - reflexivity.
  - reflexivity.
  - reflexivity.
  - reflexivity.
  - vm_compute. reflexivity.
Defined.

(** With [max_messages = 2] and a service that asks for one more file at
    each turn, the conversation raises after its second turn. *)
Lemma turn_bound_exhausted_aborts_run_witness :
  check_proof (ext := service_keeps_asking) (linter_incremental 2)
    demo_location None []
  = (inl (TimeoutError "No result after max messages"),
     world_after (H := service_keeps_asking) (linter_incremental 2) 2
       demo_location None []).
Proof.
  refine (proj1 (proj2
    (turn_bound_exhausted_aborts_run (ext := service_keeps_asking)
       (linter_incremental 2) demo_location None [] _)
    (locals_after (H := service_keeps_asking) (linter_incremental 2) 2
       demo_location None [])
    (world_after (H := service_keeps_asking) (linter_incremental 2) 2
       demo_location None [])
    _)).
  - now vm_compute.
  - vm_compute. reflexivity.
Defined.

(** A rejected first call under a ceiling of 4000: the Failure carries the
    text of the rejection and costs 4000. *)
Lemma rejected_call_costs_ceiling_witness :
  check_proof (ext := service_rejects) linter_per_property demo_location
    (Some 4000%Z) []
  = (inr (failure demo_location "context length exceeded", 4000%Z),
     [] ++ [request_of (H := service_rejects) linter_per_property
              (Some 2068%Z)
              (initial_locals (ext := service_rejects) linter_per_property
                 demo_location)]).
Proof.
  refine (proj1
    (rejected_call_costs_ceiling (ext := service_rejects)
       linter_per_property demo_location (Some 4000%Z) 0
       (initial_locals (ext := service_rejects) linter_per_property
          demo_location)
       [] [] (Some 2068%Z) (BadRequestError "context length exceeded")
       "context length exceeded" _ _ _ _ _ _)).
  - apply scripted_reports_token_counts. repeat constructor.
  - vm_compute. lia.
  - reflexivity.
  - vm_compute. reflexivity.
  - reflexivity.
  - left. reflexivity.
Defined.

(** Three short files under a threshold of 100000: one request, with the
    full-disclosure schema and the initial message. *)
Lemma full_disclosure_single_call_witness :
  exists reqs,
    snd (check_proof (ext := service_verdict) linter_full demo_location
           None [])
    = [] ++ reqs
    /\ length reqs <= 1
    /\ Forall (fun r =>
                 req_response_format r = FullFilesIncludedResponse
                 /\ req_messages r =
                    [{| role := user;
                        content :=
                          _build_initial_message (ext := service_verdict)
                            linter_full demo_location |}])
         reqs.
Proof.
  refine (proj2 (proj2
    (full_disclosure_single_call (ext := service_verdict) linter_full
       demo_location None _)) []).
  vm_compute. reflexivity.
Defined.

(** A total of 1340: the first property costs 1343, and the second gets the
    Failure at once, at no cost and without a call. *)
Lemma first_turn_limit_costs_nothing_witness :
  tokens_used
    (run_after (H := service_verdict) linter_tight_total
       (take 1 (_property_locations linter_tight_total)) []) = 1343%Z
  /\ check_proofs_step (ext := service_verdict) linter_tight_total
       (run_after (H := service_verdict) linter_tight_total
          (take 1 (_property_locations linter_tight_total)) [])
       demo_location []
     = (inr {| ret :=
                 ret (run_after (H := service_verdict) linter_tight_total
                        (take 1 (_property_locations linter_tight_total)) [])
                   ++ [failure demo_location "Token limit reached"];
               tokens_used :=
                 tokens_used
                   (run_after (H := service_verdict) linter_tight_total
                      (take 1 (_property_locations linter_tight_total)) []);
               conversations :=
                 conversations
                   (run_after (H := service_verdict) linter_tight_total
                      (take 1 (_property_locations linter_tight_total)) [])
                   ++ [(compute_max_tokens linter_tight_total
                          (tokens_used
                             (run_after (H := service_verdict)
                                linter_tight_total
                                (take 1 (_property_locations
                                           linter_tight_total)) [])),
                        0%Z)] |},
        []).
Proof.
  split; [vm_compute; reflexivity|].
  refine (proj2
    (first_turn_limit_costs_nothing (ext := service_verdict)
       linter_tight_total demo_location 0 [])
    _ 1340%Z _ _ _).
  - now vm_compute.
  - reflexivity.
  - now vm_compute.
Defined.

(** A threshold of 100000 characters and three short files: the run uses the
    full-disclosure shape, whatever the files hold. *)
Lemma disclosure_decided_by_total_length_witness :
  response_format linter_full = FullFilesIncludedResponse
  /\ data_type (response_format linter_full) = CorrectnessExplanation
  /\ forall loc (ext' : Externals),
       _build_initial_message (ext := ext') linter_full loc =
       full_prompt linter_full loc
         +:+ join nl
               ((fun p =>
                   format_file (Externals := ext')
                     (read_text (Externals := ext') p) p)
                  <$> demo_paths)
         +:+ message_end.
Proof.
  refine (proj1 (proj2 (proj2 (proj2
    (disclosure_decided_by_total_length (H := service_verdict) demo_paths 50
       100000 1000 None None None linter_full _)))) _).
  - vm_compute. reflexivity.
  - now vm_compute.
Defined.

(** ** C3: the file of the property can be disclosed twice *)

(** C3 fails on the code.  The conversation starts with [files_shown]
    empty although the initial message inlines the file of the property;
    when the service asks for that file it is resolved as not shown yet and
    inlined again in the follow-up message.  Here the contents of [a.py], as
    [format_file] gives them, are in the first and in the third message of
    the second request. *)
Example target_file_inlined_twice :
  check_proof (ext := service_asks_again) (linter_incremental 50)
    demo_location None []
  = (inr (verdict demo_location
            {| correctness := correct; explanation := "checked" |},
          2306%Z),
     [ {| req_max_completion_tokens := None;
          req_messages :=
            [ {| role := user;
                 content :=
                   incremental_prompt (linter_incremental 50) demo_location
                     +:+ format_file (Externals := service_asks_again)
                           (read_text (Externals := service_asks_again)
                              ["a.py"])
                           ["a.py"]
                     +:+ message_end |} ];
          req_response_format := FullFilesExcludedResponse |};
       {| req_max_completion_tokens := None;
          req_messages :=
            [ {| role := user;
                 content :=
                   incremental_prompt (linter_incremental 50) demo_location
                     +:+ format_file (Externals := service_asks_again)
                           (read_text (Externals := service_asks_again)
                              ["a.py"])
                           ["a.py"]
                     +:+ message_end |};
              {| role := assistant; content := "files" |};
              {| role := user;
                 content :=
                   "The requested files are given below." +:+ nl +:+ nl
                     +:+ format_file (Externals := service_asks_again)
                           (read_text (Externals := service_asks_again)
                              ["a.py"])
                           ["a.py"]
                     +:+ nl +:+ "        " |} ];
          req_response_format := FullFilesExcludedResponse |} ]).
Proof. vm_compute. reflexivity. Qed.

(** * Further properties of the engine *)

Section Returns.

Context {ext : Externals}.
Variable self : Linter.

Implicit Types (loc : PropertyLocation) (mt key : option Z).
Implicit Types (st : Locals) (w : World).

(** The three ways a turn returns: the token limit, a rejected call, a
    verdict. *)
Lemma turn_Return_inv loc mt st w pcr cost w' :
  turn self loc mt st w = (inr (Return pcr cost), w') ->
  (completion_budget mt st (count_input_tokens (messages st)) = None
   /\ pcr = failure loc "Token limit reached"
   /\ cost = (completion_tokens_used st + input_tokens_sent st)%Z
   /\ w' = w)
  \/ exists key,
       completion_budget mt st (count_input_tokens (messages st)) = Some key
       /\ w' = w ++ [request_of self key st]
       /\ ((exists e,
              pcr = failure loc e
              /\ cost = py_or mt MAX_CONTEXT_LENGTH)
           \/ (exists (resp : ParsedChatCompletion (response_format self))
                      u ce,
                 completions_parse w (response_format self) key (messages st)
                   = inr resp
                 /\ usage resp = Some u
                 /\ pcr = verdict loc ce
                 /\ cost = (completion_tokens_used st + completion_tokens u
                            + count_input_tokens (messages st))%Z)).
Proof.
  unfold turn.
  destruct (completion_budget mt st (count_input_tokens (messages st)))
    as [key|] eqn:Hb.
  - unfold bind, call_parse. intros H. right. exists key.
    split; [reflexivity|].
    destruct (completions_parse w (response_format self) key (messages st))
      as [[e|e|e|e|e|e]|resp] eqn:Hc; try discriminate.
    + injection H as <- <- <-. split; [reflexivity|]. left. eauto.
    + injection H as <- <- <-. split; [reflexivity|]. left. eauto.
    + unfold handle_response in H.
      destruct (usage resp) as [u|] eqn:Hu; [|discriminate].
      destruct (message_content resp) as [c|]; [|discriminate].
      destruct (message_parsed resp) as [parsed|]; [|discriminate].
      destruct (data parsed) as [fr|ce].
      * destruct (resolve_files_requested _ _ _); discriminate.
      * injection H as <- <- <-. split; [reflexivity|]. right.
        exists resp, u, ce. auto.
  - intros [= <- <- <-]. left. auto.
Qed.

Lemma turn_Return_location loc mt st w pcr cost w' :
  turn self loc mt st w = (inr (Return pcr cost), w') ->
  property_location pcr = loc.
Proof.
  intros H. apply turn_Return_inv in H
    as [(_ & -> & _) | (key & _ & _ & [(e & -> & _) | (r & u & ce & _ & _ & -> & _)])];
    reflexivity.
Qed.

Lemma check_proof_loop_location loc mt (n : nat) st w pcr cost w' :
  check_proof_loop self n loc mt st w = (inr (pcr, cost), w') ->
  property_location pcr = loc.
Proof.
  revert st w. induction n as [|n IH]; intros st w; [discriminate|].
  simpl. unfold bind.
  destruct (turn self loc mt st w) as [[e|[pcr' t|st']] w1] eqn:E;
    [discriminate | | apply IH].
  intros [= <- <- <-]. exact (turn_Return_location _ _ _ _ _ _ _ E).
Qed.

Lemma check_proofs_loop_locations (locs : list PropertyLocation)
    (rs rs' : RunState) w w' :
  check_proofs_loop self locs rs w = (inr rs', w') ->
  property_location <$> ret rs' = (property_location <$> ret rs) ++ locs.
Proof.
  revert rs w. induction locs as [|loc locs IH]; intros rs w H.
  - simpl in H. injection H as <- <-. now rewrite app_nil_r.
  - simpl in H. unfold bind in H.
    destruct (check_proofs_step self rs loc w) as [[e|rs1] w1] eqn:E;
      [discriminate|].
    apply check_proofs_step_inv in E as (pcr & cost & Hconv & ->).
    rewrite (IH _ _ H). simpl. rewrite fmap_app. simpl.
    rewrite (check_proof_loop_location _ _ _ _ _ _ _ _ Hconv).
    now rewrite <- app_assoc.
Qed.

(** X1.  A run that returns has one result for each property, in the order
    the properties were extracted in: the result at a position is that of
    the property at that position, whether a verdict or a Failure. *)
Theorem check_proofs_one_result_per_property
    (results : list ProofCheckResult) w w' :
  check_proofs self w = (inr results, w') ->
  property_location <$> results = _property_locations self.
Proof.
  unfold check_proofs, bind.
  destruct (check_proofs_loop self (_property_locations self) initial_run w)
    as [[e|rs] w1] eqn:E; [discriminate|].
  intros [= <- <-].
  exact (check_proofs_loop_locations _ _ _ _ _ E).
Qed.

Lemma check_proofs_loop_world (locs : list PropertyLocation)
    (rs : RunState) w :
  exists reqs,
    snd (check_proofs_loop self locs rs w) = w ++ reqs
    /\ length reqs <= length locs * Z.to_nat (_max_messages self).
Proof.
  revert rs w. induction locs as [|loc locs IH]; intros rs w.
  - exists []. simpl. rewrite app_nil_r. split; [reflexivity | lia].
  - simpl. unfold bind at 1. unfold check_proofs_step, bind.
    destruct (check_proof_loop_world self loc
                (compute_max_tokens self (tokens_used rs))
                (Z.to_nat (_max_messages self)) (initial_locals self loc) w)
      as (r1 & H1 & L1).
    fold (check_proof self loc (compute_max_tokens self (tokens_used rs)) w)
      in H1.
    destruct (check_proof self loc (compute_max_tokens self (tokens_used rs)) w)
      as [[e|[pcr cost]] w1]; simpl in H1; subst w1.
    + exists r1. split; [reflexivity | lia].
    + simpl.
      match goal with
      | |- context [check_proofs_loop self locs ?rs1 ?w1] =>
          destruct (IH rs1 w1) as (r2 & H2 & L2)
      end.
      exists (r1 ++ r2). rewrite H2, <- app_assoc, length_app.
      split; [reflexivity | lia].
Qed.

(** X2.  A run only adds to the requests sent before it, and it sends at
    most [max_messages] requests for each property, whatever the service
    answers and whether the run returns or raises. *)
Theorem check_proofs_request_bound w :
  exists reqs,
    snd (check_proofs self w) = w ++ reqs
    /\ length reqs
       <= length (_property_locations self) * Z.to_nat (_max_messages self).
Proof.
  destruct (check_proofs_loop_world (_property_locations self) initial_run w)
    as (reqs & H & L).
  exists reqs. split; [|exact L].
  unfold check_proofs, bind.
  destruct (check_proofs_loop self (_property_locations self) initial_run w)
    as [[e|rs] w1]; exact H.
Qed.

End Returns.

(** ** Budgets *)

Section Budgets.

Context {ext : Externals}.
Variable self : Linter.

Implicit Types (loc : PropertyLocation) (mt key : option Z).
Implicit Types (st : Locals) (w : World).

(** What a turn that goes on does to the counters. *)
Lemma turn_Next_tokens loc mt st w st' w' :
  turn self loc mt st w = (inr (Next st'), w') ->
  exists key (tokens extra : Z),
    completion_budget mt st (count_input_tokens (messages st)) = Some key
    /\ w' = w ++ [request_of self key st]
    /\ completion_tokens_used st' = (completion_tokens_used st + tokens)%Z
    /\ input_tokens_sent st' = count_input_tokens (messages st)
    /\ count_input_tokens (messages st') =
       (count_input_tokens (messages st) + extra
        + MESSAGE_ENVELOPE_TOKENS)%Z
    /\ (0 <= extra)%Z
    /\ (reports_token_counts -> 0 <= tokens)%Z
    /\ (honours_completion_cap ->
        forall k, key = Some k -> (tokens <= k)%Z).
Proof.
  intros H. apply turn_Next_inv in H
    as (key & resp & u & c & parsed & fr & Hb & Hc & Hu & _ & _ & _ & _ & -> & ->).
  exists key, (completion_tokens u). eexists.
  split; [exact Hb|]. split; [reflexivity|]. split; [reflexivity|].
  split; [reflexivity|]. simpl. rewrite !count_input_tokens_app. simpl.
  split; [rewrite Z.add_0_r, Z.add_assoc; reflexivity|].
  split; [lia|]. split.
  - intros Hsvc. exact (Hsvc _ _ _ _ _ _ Hc Hu).
  - intros Hcap k ->. refine (Hcap _ _ _ _ _ _ _ Hc Hu).
    apply completion_budget_Some in Hb. destruct mt as [c0|].
    + destruct Hb as [[= ->] Hpos]. exact Hpos.
    + discriminate.
Qed.

(** With a service that reports token counts and keeps to the cap, the
    completion tokens used and the input estimate of the last call stay
    within the ceiling, and so does the cost a conversation returns. *)
Lemma check_proof_loop_cost loc (c : Z) (n : nat) st w pcr cost w' :
  reports_token_counts ->
  honours_completion_cap ->
  (0 <= completion_tokens_used st)%Z ->
  (0 <= input_tokens_sent st)%Z ->
  (completion_tokens_used st + input_tokens_sent st <= Z.max c 0)%Z ->
  check_proof_loop self n loc (Some c) st w = (inr (pcr, cost), w') ->
  (0 <= cost <= Z.max c 0)%Z.
Proof.
  intros Hsvc Hcap. revert st w.
  induction n as [|n IH]; intros st w Hcu Hsent Hsum; [discriminate|].
  simpl. unfold bind.
  pose proof (count_input_tokens_nonneg (messages st)) as Hin.
  destruct (turn self loc (Some c) st w) as [[e|[pcr' t|st']] w1] eqn:E;
    [discriminate | |].
  - intros [= <- <- <-].
    apply turn_Return_inv in E
      as [(_ & _ & -> & _)
         | (key & Hb & _ & [(e & _ & ->)
                           | (resp & u & ce & Hc & Hu & _ & ->)])].
    + lia.
    + apply completion_budget_Some in Hb as [_ Hpos].
      unfold py_or. destruct (Z.eqb_spec c 0); lia.
    + apply completion_budget_Some in Hb as [-> Hpos].
      pose proof (Hsvc _ _ _ _ _ _ Hc Hu).
      pose proof (Hcap _ _ _ _ _ _ Hpos Hc Hu). lia.
  - apply turn_Next_tokens in E
      as (key & tokens & extra & Hb & _ & Hcu' & Hsent' & _ & _ & H0 & Hk).
    apply completion_budget_Some in Hb as [-> Hpos].
    specialize (H0 Hsvc). specialize (Hk Hcap _ eq_refl).
    apply IH; lia.
Qed.

(** The cost of a conversation is a count. *)
Lemma check_proof_loop_cost_nonneg loc mt (n : nat) st w pcr cost w' :
  reports_token_counts ->
  (0 <= completion_tokens_used st)%Z ->
  (0 <= input_tokens_sent st)%Z ->
  check_proof_loop self n loc mt st w = (inr (pcr, cost), w') ->
  (0 <= cost)%Z.
Proof.
  intros Hsvc. revert st w.
  induction n as [|n IH]; intros st w Hcu Hsent; [discriminate|].
  simpl. unfold bind.
  pose proof (count_input_tokens_nonneg (messages st)) as Hin.
  destruct (turn self loc mt st w) as [[e|[pcr' t|st']] w1] eqn:E;
    [discriminate | |].
  - intros [= <- <- <-].
    apply turn_Return_inv in E
      as [(_ & _ & -> & _)
         | (key & Hb & _ & [(e & _ & ->)
                           | (resp & u & ce & Hc & Hu & _ & ->)])].
    + lia.
    + unfold py_or, MAX_CONTEXT_LENGTH. destruct mt as [c|]; [|lia].
      apply completion_budget_Some in Hb as [_ Hpos].
      destruct (Z.eqb_spec c 0); lia.
    + pose proof (Hsvc _ _ _ _ _ _ Hc Hu). lia.
  - apply turn_Next_tokens in E
      as (key & tokens & extra & _ & _ & Hcu' & Hsent' & _ & _ & H0 & _).
    specialize (H0 Hsvc). apply IH; lia.
Qed.

(** X3.  With a service that reports token counts and keeps to the cap it is
    given, a conversation with a ceiling costs the run no more than the
    ceiling (nothing when the ceiling is not positive), whether it ends with a
    verdict or with a Failure. *)
Theorem conversation_cost_within_ceiling loc (c : Z) w pcr cost w' :
  reports_token_counts ->
  honours_completion_cap ->
  check_proof self loc (Some c) w = (inr (pcr, cost), w') ->
  (0 <= cost <= Z.max c 0)%Z.
Proof.
  intros Hsvc Hcap H.
  apply (check_proof_loop_cost loc c _ _ _ _ _ _ Hsvc Hcap) in H;
    [exact H | simpl; lia ..].
Qed.

Lemma check_proofs_loop_within_total (locs : list PropertyLocation)
    (total : Z) (rs rs' : RunState) w w' :
  reports_token_counts ->
  honours_completion_cap ->
  _max_tokens_total self = Some total ->
  (0 <= tokens_used rs <= total)%Z ->
  check_proofs_loop self locs rs w = (inr rs', w') ->
  (tokens_used rs <= tokens_used rs' <= total)%Z.
Proof.
  intros Hsvc Hcap Htotal. revert rs w.
  induction locs as [|loc locs IH]; intros rs w Hused H.
  - simpl in H. injection H as <- <-. lia.
  - simpl in H. unfold bind in H.
    destruct (check_proofs_step self rs loc w) as [[e|rs1] w1] eqn:E;
      [discriminate|].
    apply check_proofs_step_inv in E as (pcr & cost & Hconv & ->).
    assert (exists c, compute_max_tokens self (tokens_used rs) = Some c
                      /\ (c <= total - tokens_used rs)%Z) as (c & Hc & Hle).
    { unfold compute_max_tokens. rewrite Htotal.
      destruct (_max_tokens_per_property self);
        eexists; (split; [reflexivity | lia]). }
    rewrite Hc in Hconv.
    apply (check_proof_loop_cost loc c _ _ _ _ _ _ Hsvc Hcap) in Hconv;
      [|simpl; lia ..].
    apply IH in H; simpl in *; lia.
Qed.

(** X4.  With a service that reports token counts and keeps to the cap it is
    given, a run with a total budget never reports more tokens used than the
    total: after each property [tokens_used] is between 0 and
    [max_tokens_total]. *)
Theorem run_within_total_budget (locs : list PropertyLocation) (total : Z)
    (rs : RunState) w w' :
  reports_token_counts ->
  honours_completion_cap ->
  _max_tokens_total self = Some total ->
  (0 <= total)%Z ->
  check_proofs_loop self locs initial_run w = (inr rs, w') ->
  (0 <= tokens_used rs <= total)%Z.
Proof.
  intros Hsvc Hcap Htotal Hpos H.
  apply (check_proofs_loop_within_total locs total _ _ _ _ Hsvc Hcap Htotal)
    in H; simpl in *; lia.
Qed.

(** The caps of the requests of a conversation. *)
Lemma check_proof_loop_caps loc mt (n : nat) st w :
  reports_token_counts ->
  (0 <= completion_tokens_used st)%Z ->
  exists reqs,
    snd (check_proof_loop self n loc mt st w) = w ++ reqs
    /\ Forall (fun r =>
                 match mt with
                 | None => req_max_completion_tokens r = None
                 | Some c =>
                     exists k,
                       req_max_completion_tokens r = Some k
                       /\ (0 < k)%Z
                       /\ (k + count_input_tokens (req_messages r) <= c)%Z
                 end) reqs.
Proof.
  intros Hsvc. revert st w. induction n as [|n IH]; intros st w Hcu.
  - exists []. simpl. rewrite app_nil_r. auto.
  - simpl. unfold bind.
    destruct (completion_budget mt st (count_input_tokens (messages st)))
      as [key|] eqn:Hb.
    + pose proof (turn_call self loc mt st w key Hb) as Hw.
      assert (match mt with
              | None => req_max_completion_tokens (request_of self key st)
                        = None
              | Some c =>
                  exists k,
                    req_max_completion_tokens (request_of self key st)
                      = Some k
                    /\ (0 < k)%Z
                    /\ (k + count_input_tokens
                              (req_messages (request_of self key st))
                        <= c)%Z
              end) as Hreq.
      { apply completion_budget_Some in Hb. destruct mt as [c|].
        - destruct Hb as [-> Hpos]. eexists. split; [reflexivity|].
          simpl. lia.
        - now subst key. }
      destruct (turn self loc mt st w) as [[e|[pcr t|st1]] w1] eqn:E;
        simpl in Hw; subst w1.
      * exists [request_of self key st]. split; [reflexivity|].
        constructor; [exact Hreq | constructor].
      * exists [request_of self key st]. split; [reflexivity|].
        constructor; [exact Hreq | constructor].
      * apply turn_Next_tokens in E
          as (key' & tokens & extra & _ & _ & Hcu' & _ & _ & _ & H0 & _).
        specialize (H0 Hsvc).
        assert (0 <= completion_tokens_used st1)%Z as Hcu1 by lia.
        destruct (IH st1 (w ++ [request_of self key st]) Hcu1)
          as (reqs & Hreqs & Hall).
        exists (request_of self key st :: reqs).
        rewrite Hreqs, <- app_assoc. split; [reflexivity|].
        constructor; assumption.
    + rewrite (turn_limit self loc mt st w Hb). exists []. simpl.
      rewrite app_nil_r. auto.
Qed.

(** X5.  Without a ceiling no request carries a completion-token cap.  With
    the ceiling [c] every request carries one: it is positive, and with the
    input estimate of the messages of the request it stays within the
    ceiling. *)
Theorem requests_carry_remaining_budget loc mt w :
  reports_token_counts ->
  exists reqs,
    snd (check_proof self loc mt w) = w ++ reqs
    /\ Forall (fun r =>
                 match mt with
                 | None => req_max_completion_tokens r = None
                 | Some c =>
                     exists k,
                       req_max_completion_tokens r = Some k
                       /\ (0 < k)%Z
                       /\ (k + count_input_tokens (req_messages r) <= c)%Z
                 end) reqs.
Proof.
  intros Hsvc. apply check_proof_loop_caps; [exact Hsvc | simpl; lia].
Qed.

(** Each user message is estimated at [MESSAGE_ENVELOPE_TOKENS] or more, so
    a ceiling leaves room for fewer calls than it has envelopes. *)
Lemma check_proof_loop_calls_by_ceiling loc (c : Z) (n : nat) st w (m : Z) :
  reports_token_counts ->
  (0 <= completion_tokens_used st)%Z ->
  (MESSAGE_ENVELOPE_TOKENS * m <= count_input_tokens (messages st))%Z ->
  exists reqs,
    snd (check_proof_loop self n loc (Some c) st w) = w ++ reqs
    /\ (reqs = []
        \/ (MESSAGE_ENVELOPE_TOKENS * (m - 1 + Z.of_nat (length reqs)) < c)%Z).
Proof.
  intros Hsvc. revert st w m. induction n as [|n IH]; intros st w m Hcu Hm.
  - exists []. simpl. rewrite app_nil_r. auto.
  - simpl. unfold bind.
    destruct (completion_budget (Some c) st
                (count_input_tokens (messages st))) as [key|] eqn:Hb.
    + pose proof (turn_call self loc (Some c) st w key Hb) as Hw.
      pose proof (completion_budget_Some _ _ _ Hb) as [_ Hpos].
      destruct (turn self loc (Some c) st w) as [[e|[pcr t|st1]] w1] eqn:E;
        simpl in Hw; subst w1.
      * exists [request_of self key st]. split; [reflexivity|].
        right. simpl. lia.
      * exists [request_of self key st]. split; [reflexivity|].
        right. simpl. lia.
      * apply turn_Next_tokens in E
          as (key' & tokens & extra & _ & _ & Hcu' & _ & Hin' & Hextra
              & H0 & _).
        specialize (H0 Hsvc).
        assert (0 <= completion_tokens_used st1)%Z as Hcu1 by lia.
        assert (MESSAGE_ENVELOPE_TOKENS * (m + 1)
                <= count_input_tokens (messages st1))%Z as Hm1
          by (unfold MESSAGE_ENVELOPE_TOKENS in *; lia).
        destruct (IH st1 (w ++ [request_of self key st]) (m + 1)%Z Hcu1 Hm1)
          as (reqs & Hreqs & Hbound).
        exists (request_of self key st :: reqs).
        rewrite Hreqs, <- app_assoc. split; [reflexivity|]. right.
        destruct Hbound as [-> | Hbound]; simpl length; lia.
    + rewrite (turn_limit self loc (Some c) st w Hb). exists []. simpl.
      rewrite app_nil_r. auto.
Qed.

(** X6.  A conversation with the ceiling [c] sends fewer requests than the
    ceiling has envelope overheads of 300 tokens: none when the ceiling is
    300 or less, and otherwise a number [n] of them with [300 * n < c],
    whatever [max_messages] is. *)
Theorem calls_bounded_by_ceiling loc (c : Z) w :
  reports_token_counts ->
  exists reqs,
    snd (check_proof self loc (Some c) w) = w ++ reqs
    /\ (reqs = []
        \/ (MESSAGE_ENVELOPE_TOKENS * Z.of_nat (length reqs) < c)%Z).
Proof.
  intros Hsvc.
  destruct (check_proof_loop_calls_by_ceiling loc c
              (Z.to_nat (_max_messages self)) (initial_locals self loc) w 1
              Hsvc) as (reqs & H & Hb).
  - simpl. lia.
  - rewrite count_input_tokens_user_only. simpl. lia.
  - exists reqs. split; [exact H|].
    destruct Hb as [-> | Hb]; [now left | right; lia].
Qed.

End Budgets.

(** ** Transcripts *)

Section Transcripts.

Context {ext : Externals}.
Variable self : Linter.

Implicit Types (loc : PropertyLocation) (mt key : option Z).
Implicit Types (st : Locals) (w : World).

Lemma length_resolve_files_requested
    (all_files : gset Path) (requested : list string) (shown : gset Path) :
  length (resolve_files_requested all_files requested shown)
  <= MAX_FILES_REQUESTED.
Proof. unfold resolve_files_requested. rewrite length_take. lia. Qed.

(** The messages and the files a file-request turn adds. *)
Lemma turn_discloses loc mt st w st' w' :
  turn self loc mt st w = (inr (Next st'), w') ->
  exists (c : string) (files : list Path),
    files <> []
    /\ length files <= MAX_FILES_REQUESTED
    /\ NoDup files
    /\ (forall p, p ∈ files -> p ∈ all_files self /\ p ∉ files_shown st)
    /\ files_shown st' = files_shown st ∪ list_to_set files
    /\ messages st' = messages st ++ follow_up (c, files).
Proof.
  intros H. apply turn_Next_inv in H
    as (key & resp & u & c & parsed & fr & _ & _ & _ & _ & _ & _ & Hne & _ & ->).
  exists c. eexists. split; [exact Hne|].
  split; [apply length_resolve_files_requested|].
  split; [apply NoDup_resolve_files_requested|].
  split; [|split; [reflexivity|]].
  - intros p Hp.
    destruct (elem_of_resolve_files_requested _ _ _ _ Hp) as (? & _ & ?).
    auto.
  - simpl. now rewrite <- app_assoc.
Qed.

Lemma transcript_snoc loc (tr : list (string * list Path))
    (cd : string * list Path) :
  transcript self loc (tr ++ [cd]) = transcript self loc tr ++ follow_up cd.
Proof.
  unfold transcript. rewrite fmap_app, concat_app. simpl.
  rewrite ?app_nil_r. reflexivity.
Qed.

(** After [n] file-request turns: the messages, the files shown, and what
    was disclosed at each turn. *)
Lemma turns_transcript loc mt (n : nat) st w w' :
  turns self n loc mt (initial_locals self loc) w = (inr (Next st), w') ->
  exists tr : list (string * list Path),
    length tr = n
    /\ messages st = transcript self loc tr
    /\ files_shown st = list_to_set (concat (snd <$> tr))
    /\ NoDup (concat (snd <$> tr))
    /\ Forall (fun cd =>
                 snd cd <> []
                 /\ length (snd cd) <= MAX_FILES_REQUESTED
                 /\ forall p, p ∈ snd cd -> p ∈ all_files self) tr.
Proof.
  revert st w'. induction n as [|n IH]; intros st w' H.
  - simpl in H. injection H as <- <-. exists []. simpl.
    repeat split; try reflexivity; constructor.
  - replace (S n) with (n + 1) in H by lia. rewrite turns_add in H.
    destruct (turns self n loc mt (initial_locals self loc) w)
      as [[e|[pcr t|st1]] w1] eqn:E; try discriminate.
    destruct (IH _ _ eq_refl) as (tr & Hlen & Hmsgs & Hshown & Hnd & Hall).
    simpl in H. unfold bind in H.
    destruct (turn self loc mt st1 w1) as [[e|[pcr t|st2]] w2] eqn:Et;
      try discriminate.
    injection H as <- <-.
    apply turn_discloses in Et
      as (c & files & Hne & Hle & Hndf & Hfresh & Hshown' & Hmsgs').
    exists (tr ++ [(c, files)]).
    rewrite length_app, fmap_app, concat_app. simpl. rewrite app_nil_r.
    split; [lia|]. split; [now rewrite transcript_snoc, <- Hmsgs|].
    split; [now rewrite list_to_set_app_L, <- Hshown|]. split.
    + apply NoDup_app. split; [exact Hnd|]. split; [|exact Hndf].
      intros p Hp Hp'. destruct (Hfresh p Hp') as [_ Hnot].
      apply Hnot. rewrite Hshown. now apply elem_of_list_to_set.
    + apply Forall_app. split; [exact Hall|].
      constructor; [|constructor]. simpl.
      split; [exact Hne|]. split; [exact Hle|].
      intros p Hp. now destruct (Hfresh p Hp).
Qed.

Lemma transcript_roles loc (tr : list (string * list Path)) :
  role <$> transcript self loc tr =
  user :: concat (replicate (length tr) [assistant; user]).
Proof.
  unfold transcript. simpl. f_equal.
  induction tr as [|cd tr IH]; [reflexivity|].
  simpl. do 2 f_equal. exact IH.
Qed.

(** X7.  After [n] file-request turns the messages of a conversation are
    the initial message and, for each of the turns in order, the reply of
    the service and the follow-up message with the files disclosed at that
    turn: the roles alternate, starting and ending with the user.  Each turn
    disclosed between one and [MAX_FILES_REQUESTED] known files, no file is
    in two follow-up messages, and the files shown are the files of the
    follow-up messages. *)
Theorem conversation_transcript loc mt (n : nat) st w w' :
  turns self n loc mt (initial_locals self loc) w = (inr (Next st), w') ->
  exists tr : list (string * list Path),
    length tr = n
    /\ messages st = transcript self loc tr
    /\ role <$> messages st =
       user :: concat (replicate n [assistant; user])
    /\ files_shown st = list_to_set (concat (snd <$> tr))
    /\ NoDup (concat (snd <$> tr))
    /\ Forall (fun cd =>
                 1 <= length (snd cd) <= MAX_FILES_REQUESTED
                 /\ forall p, p ∈ snd cd -> p ∈ all_files self) tr.
Proof.
  intros H.
  destruct (turns_transcript _ _ _ _ _ _ H)
    as (tr & Hlen & Hmsgs & Hshown & Hnd & Hall).
  exists tr. split; [exact Hlen|]. split; [exact Hmsgs|].
  split; [now rewrite Hmsgs, transcript_roles, Hlen|].
  split; [exact Hshown|]. split; [exact Hnd|].
  eapply Forall_impl; [exact Hall|].
  intros [c d] (Hne & Hle & Hin). simpl in *.
  split; [|exact Hin]. destruct d; [contradiction | simpl in *; lia].
Qed.

Lemma length_concat_bounds {A} (ls : list (list A)) (k : nat) :
  Forall (fun l => l <> [] /\ length l <= k) ls ->
  length ls <= length (concat ls) <= k * length ls.
Proof.
  induction 1 as [|l ls [Hne Hle] _ IH]; simpl; [lia|].
  rewrite length_app. destruct l; [contradiction | simpl in *; lia].
Qed.

(** X8.  A conversation has no more file-request turns than the code base
    has files: each such turn shows at least one known file that was not
    shown before, and at most [MAX_FILES_REQUESTED] of them. *)
Theorem file_request_turns_bounded_by_files loc mt (n : nat) st w w' :
  turns self n loc mt (initial_locals self loc) w = (inr (Next st), w') ->
  files_shown st ⊆ all_files self
  /\ n <= size (files_shown st) <= MAX_FILES_REQUESTED * n
  /\ n <= length (_rel_paths self).
Proof.
  intros H.
  destruct (turns_transcript _ _ _ _ _ _ H)
    as (tr & Hlen & _ & Hshown & Hnd & Hall).
  assert (files_shown st ⊆ all_files self) as Hsub.
  { rewrite Hshown. intros p Hp. apply elem_of_list_to_set in Hp.
    apply list_elem_of_In, List.in_concat in Hp as (d & Hd & Hp).
    apply list_elem_of_In in Hd, Hp.
    apply list_elem_of_fmap in Hd as ([c d'] & -> & Hcd).
    rewrite Forall_forall in Hall. now apply (Hall _ Hcd). }
  assert (size (files_shown st) = length (concat (snd <$> tr))) as Hsize.
  { rewrite Hshown. now apply size_list_to_set. }
  assert (length (snd <$> tr) <= length (concat (snd <$> tr))
          <= MAX_FILES_REQUESTED * length (snd <$> tr)) as Hb.
  { apply length_concat_bounds. apply Forall_fmap.
    eapply Forall_impl; [exact Hall|]. intros cd (? & ? & _). auto. }
  rewrite length_fmap, Hlen in Hb.
  split; [exact Hsub|]. split; [lia|].
  apply subseteq_size in Hsub.
  assert (size (all_files self) <= length (_rel_paths self)).
  { unfold all_files, size, set_size. simpl.
    apply submseteq_length, NoDup_submseteq; [apply NoDup_elements|].
    intros p Hp. now apply elem_of_elements, elem_of_list_to_set in Hp. }
  lia.
Qed.

End Transcripts.

(** ** Fatal conditions *)

Section Fatal.

Context {ext : Externals}.
Variable self : Linter.

Implicit Types (loc : PropertyLocation) (mt key : option Z).
Implicit Types (st : Locals) (w : World).

Lemma turn_incomplete loc mt st w key
    (resp : ParsedChatCompletion (response_format self)) (m : string) :
  completion_budget mt st (count_input_tokens (messages st)) = Some key ->
  completions_parse w (response_format self) key (messages st) = inr resp ->
  (usage resp = None /\ m = "No token usage available")
  \/ (usage resp <> None
      /\ (message_content resp = None \/ message_parsed resp = None)
      /\ m = "No response from LLM") ->
  turn self loc mt st w =
  (inl (RuntimeError m), w ++ [request_of self key st]).
Proof.
  intros Hb Hc Hm. unfold turn. rewrite Hb.
  unfold bind, call_parse. rewrite Hc. unfold handle_response.
  destruct Hm as [[-> ->] | (Hu & Hm & ->)]; [reflexivity|].
  destruct (usage resp); [|contradiction].
  destruct (message_content resp); [|reflexivity].
  destruct Hm as [Hm | Hm]; [discriminate|].
  rewrite Hm. reflexivity.
Qed.

Lemma turn_uncaught loc mt st w key exc :
  completion_budget mt st (count_input_tokens (messages st)) = Some key ->
  completions_parse w (response_format self) key (messages st) = inl exc ->
  (forall e, exc <> BadRequestError e) ->
  (forall e, exc <> LengthFinishReasonError e) ->
  turn self loc mt st w = (inl exc, w ++ [request_of self key st]).
Proof.
  intros Hb Hc H1 H2. unfold turn. rewrite Hb.
  unfold bind, call_parse. rewrite Hc.
  destruct exc as [e|e|e|e|e|e]; try reflexivity.
  - now destruct (H1 e).
  - now destruct (H2 e).
Qed.

(** X9.  A completion without usage data makes the conversation raise
    [RuntimeError("No token usage available")]; one with usage data but
    without content or without a parsed payload makes it raise
    [RuntimeError("No response from LLM")].  The run raises the same and
    returns no results. *)
Theorem incomplete_completion_aborts_run loc mt (n : nat) st w0 w key
    (resp : ParsedChatCompletion (response_format self)) (m : string) :
  n < Z.to_nat (_max_messages self) ->
  turns self n loc mt (initial_locals self loc) w0 = (inr (Next st), w) ->
  completion_budget mt st (count_input_tokens (messages st)) = Some key ->
  completions_parse w (response_format self) key (messages st) = inr resp ->
  (usage resp = None /\ m = "No token usage available")
  \/ (usage resp <> None
      /\ (message_content resp = None \/ message_parsed resp = None)
      /\ m = "No response from LLM") ->
  check_proof self loc mt w0 =
  (inl (RuntimeError m), w ++ [request_of self key st])
  /\ forall (pre post : list PropertyLocation) (rs : RunState) w00,
       _property_locations self = pre ++ loc :: post ->
       check_proofs_loop self pre initial_run w00 = (inr rs, w0) ->
       mt = compute_max_tokens self (tokens_used rs) ->
       check_proofs self w00 =
       (inl (RuntimeError m), w ++ [request_of self key st]).
Proof.
  intros Hn Hturns Hb Hc Hm.
  assert (check_proof self loc mt w0 =
          (inl (RuntimeError m), w ++ [request_of self key st])) as Hconv.
  { rewrite (check_proof_at_turn self loc mt n st w0 w Hn Hturns).
    now rewrite (turn_incomplete loc mt st w key resp m Hb Hc Hm). }
  split; [exact Hconv|].
  intros pre post rs w00 Hlocs Hpre ->.
  exact (check_proofs_abort self pre post loc rs w00 w0 _ _ Hlocs Hpre Hconv).
Qed.

(** X10.  An exception of the service other than [BadRequestError] and
    [LengthFinishReasonError] is not caught: the conversation raises it as it
    is, and so does the run, which returns no results. *)
Theorem uncaught_exception_aborts_run loc mt (n : nat) st w0 w key exc :
  n < Z.to_nat (_max_messages self) ->
  turns self n loc mt (initial_locals self loc) w0 = (inr (Next st), w) ->
  completion_budget mt st (count_input_tokens (messages st)) = Some key ->
  completions_parse w (response_format self) key (messages st) = inl exc ->
  (forall e, exc <> BadRequestError e) ->
  (forall e, exc <> LengthFinishReasonError e) ->
  check_proof self loc mt w0 = (inl exc, w ++ [request_of self key st])
  /\ forall (pre post : list PropertyLocation) (rs : RunState) w00,
       _property_locations self = pre ++ loc :: post ->
       check_proofs_loop self pre initial_run w00 = (inr rs, w0) ->
       mt = compute_max_tokens self (tokens_used rs) ->
       check_proofs self w00 = (inl exc, w ++ [request_of self key st]).
Proof.
  intros Hn Hturns Hb Hc H1 H2.
  assert (check_proof self loc mt w0 =
          (inl exc, w ++ [request_of self key st])) as Hconv.
  { rewrite (check_proof_at_turn self loc mt n st w0 w Hn Hturns).
    now rewrite (turn_uncaught loc mt st w key exc Hb Hc H1 H2). }
  split; [exact Hconv|].
  intros pre post rs w00 Hlocs Hpre ->.
  exact (check_proofs_abort self pre post loc rs w00 w0 _ _ Hlocs Hpre Hconv).
Qed.

End Fatal.

(** ** Construction and the command line *)

Section Construction.

Context {ext : Externals}.

(** X11.  [__init__] raises [ValueError] exactly when there are more files
    than [max_files].  Otherwise the linter has the files it was given, and
    its properties are those of the files, file by file in the order of the
    files: a location is a property of the linter exactly when its file is
    one of the files and its line is that of a proposition of the file; so
    the file of every property is a known file. *)
Theorem Linter_init_properties (rel_paths : list Path)
    (max_messages threshold max_files : Z) (python_deps : option string)
    (total per_property : option Z) :
  match Linter_init rel_paths max_messages threshold max_files python_deps
          total per_property with
  | inl e =>
      (max_files < Z.of_nat (length rel_paths))%Z
      /\ e = ValueError ("Too many files: " +:+ pretty (length rel_paths))
  | inr self =>
      (Z.of_nat (length rel_paths) <= max_files)%Z
      /\ _rel_paths self = rel_paths
      /\ rel_path <$> _property_locations self =
         rel_paths ≫= (fun p =>
           replicate (length (extract_propositions (read_text p))) p)
      /\ (forall loc,
            loc ∈ _property_locations self <->
            rel_path loc ∈ rel_paths
            /\ line_num loc ∈ extract_propositions (read_text (rel_path loc)))
      /\ (forall loc,
            loc ∈ _property_locations self -> rel_path loc ∈ all_files self)
  end.
Proof.
  unfold Linter_init.
  destruct (Z.ltb_spec max_files (Z.of_nat (length rel_paths))) as [Hlt|Hge];
    [split; [exact Hlt | reflexivity]|].
  simpl. unfold all_files. simpl.
  assert (forall loc,
            loc ∈ (rel_paths ≫= fun p =>
                     (fun n => {| rel_path := p; line_num := n |})
                       <$> extract_propositions (read_text p)) <->
            rel_path loc ∈ rel_paths
            /\ line_num loc ∈ extract_propositions (read_text (rel_path loc)))
    as Hmem.
  { intros loc. rewrite list_elem_of_bind. split.
    - intros (p & Hloc & Hp). apply list_elem_of_fmap in Hloc as (k & -> & Hk).
      simpl. auto.
    - intros [Hp Hk]. exists (rel_path loc). split; [|exact Hp].
      apply list_elem_of_fmap. exists (line_num loc).
      split; [now destruct loc | exact Hk]. }
  split; [exact Hge|]. split; [reflexivity|]. split; [|split; [exact Hmem|]].
  - clear. induction rel_paths as [|p ps IH]; [reflexivity|].
    rewrite !bind_cons, fmap_app. f_equal; [|exact IH].
    clear. induction (extract_propositions (read_text p)) as [|k ks IHk];
      [reflexivity|]. simpl. f_equal. exact IHk.
  - intros loc Hloc. apply elem_of_list_to_set. now apply Hmem in Hloc.
Qed.

Lemma existsb_not_correct (results : list ProofCheckResult) :
  existsb not_correct results = false <->
  forall r, r ∈ results ->
    exists e, correctness_explanation r
              = inl {| correctness := correct; explanation := e |}.
Proof.
  induction results as [|r rs IH]; simpl.
  - split; [|reflexivity]. intros _ r Hr. inversion Hr.
  - rewrite orb_false_iff, IH. split.
    + intros [Hr Hall] r' Hr'. apply elem_of_cons in Hr' as [-> | Hr'];
        [|now apply Hall].
      unfold not_correct in Hr.
      destruct (correctness_explanation r) as [[[] e]|]; try discriminate.
      eauto.
    + intros Hall. split.
      * destruct (Hall r ltac:(left)) as [e He].
        unfold not_correct. now rewrite He.
      * intros r' Hr'. apply Hall. now right.
Qed.

(** X12.  When [main] comes to print results, the exit status is 0 or 1, and
    it is 0 exactly when every result is a verdict "correct": a Failure or a
    verdict "incorrect" or "unknown" for one property makes it 1.  The
    results are those of the properties of the files, one each, in order. *)
Theorem main_exit_status (rel_paths : list Path)
    (max_files max_messages threshold : Z) (python_deps : option string)
    (total per_property : option Z)
    (results : list ProofCheckResult) (status : Z) (w w' : World) :
  main rel_paths max_files max_messages threshold python_deps total
    per_property w = (inr (results, status), w') ->
  (status = 0%Z \/ status = 1%Z)
  /\ (status = 0%Z <->
      forall r, r ∈ results ->
        exists e, correctness_explanation r
                  = inl {| correctness := correct; explanation := e |})
  /\ exists self,
       Linter_init rel_paths max_messages threshold max_files python_deps
         total per_property = inr self
       /\ property_location <$> results = _property_locations self.
Proof.
  unfold main.
  destruct (Linter_init rel_paths max_messages threshold max_files
              python_deps total per_property) as [e|self]; [discriminate|].
  unfold bind.
  destruct (check_proofs self w) as [[e|rs] w1] eqn:E; [discriminate|].
  intros [= <- <- <-]. unfold exit_status.
  rewrite <- existsb_not_correct.
  split; [|split].
  - destruct (existsb not_correct rs); auto.
  - destruct (existsb not_correct rs); split; congruence.
  - exists self. split; [reflexivity|].
    unfold check_proofs, bind in E.
    destruct (check_proofs_loop self (_property_locations self) initial_run w)
      as [[e|st] w2] eqn:El; [discriminate|].
    injection E as <- <-.
    exact (check_proofs_loop_locations self _ _ _ _ _ El).
Qed.

End Construction.

(** ** Requests by the names of the listing *)

Lemma is_name_inv (x : string) :
  is_name x = true ->
  is_component x = true /\ has_slash x = false
  /\ exists c x', x = String c x' /\ Ascii.eqb c slash = false.
Proof.
  unfold is_name. intros H. apply andb_true_iff in H as [Hc Hs].
  apply negb_true_iff in Hs. split; [exact Hc|]. split; [exact Hs|].
  destruct x as [|c x']; [discriminate|].
  simpl in Hs. apply orb_false_iff in Hs as [Hs _]. eauto.
Qed.

Lemma split_slash_name (x : string) :
  has_slash x = false -> split_slash x = [x].
Proof.
  induction x as [|c x IH]; [reflexivity|]. simpl.
  intros H. apply orb_false_iff in H as [Hc Hx].
  rewrite Hc, (IH Hx). reflexivity.
Qed.

Lemma split_slash_app (x s : string) :
  has_slash x = false ->
  split_slash (x +:+ "/" +:+ s) = x :: split_slash s.
Proof.
  induction x as [|c x IH]; [reflexivity|]. simpl.
  intros H. apply orb_false_iff in H as [Hc Hx].
  rewrite Hc, (IH Hx). reflexivity.
Qed.

Lemma split_slash_join (p : Path) :
  p <> [] -> Forall (fun x => has_slash x = false) p ->
  split_slash (join "/" p) = p.
Proof.
  induction p as [|x p IH]; [contradiction|]. intros _ Hall.
  apply Forall_cons in Hall as [Hx Hp].
  destruct p as [|y p]; [now apply split_slash_name|].
  change (join "/" (x :: y :: p)) with (x +:+ "/" +:+ join "/" (y :: p)).
  rewrite split_slash_app by exact Hx. f_equal.
  apply IH; [discriminate | exact Hp].
Qed.

(** [Path(str(p)) == p] for a relative path. *)
Lemma Path_of_str_of_Path (p : Path) :
  is_relative_path p -> Path_of_str (str_of_Path p) = p.
Proof.
  intros [Hne Hall]. destruct p as [|x tail]; [contradiction|].
  pose proof Hall as Hall'. apply Forall_cons in Hall' as [Hx _].
  destruct (is_name_inv x Hx) as (_ & _ & c & x' & -> & Hc).
  assert (String.prefix "/" (String c x') = false) as Hpre.
  { change (String.prefix "/" (String c x'))
      with (if ascii_dec "/" c then String.prefix EmptyString x' else false).
    destruct (ascii_dec "/" c) as [<-|]; [discriminate Hc | reflexivity]. }
  unfold str_of_Path. rewrite Hpre.
  assert (exists rest, join "/" (String c x' :: tail) = String c rest)
    as [rest Hrest].
  { destruct tail; simpl; eauto. }
  unfold Path_of_str.
  assert (splitroot (join "/" (String c x' :: tail))
          = (EmptyString, join "/" (String c x' :: tail))) as ->.
  { rewrite Hrest. simpl. now rewrite Hc. }
  cbv beta iota zeta.
  change (String.eqb EmptyString EmptyString) with true.
  cbv iota. rewrite app_nil_l, split_slash_join.
  - apply List.forallb_filter_id. apply List.forallb_forall.
    intros y Hy. apply list_elem_of_In in Hy.
    rewrite Forall_forall in Hall. now destruct (is_name_inv y (Hall y Hy)).
  - discriminate.
  - eapply Forall_impl; [exact Hall|]. intros y Hy.
    now destruct (is_name_inv y Hy) as (_ & ? & _).
Qed.

(** X13.  A request that names known files that were not shown yet, at most
    [MAX_FILES_REQUESTED] of them, each once and by the name it has in the
    listing of the initial message, is resolved to exactly those files. *)
Theorem listed_names_are_resolved (all_files shown : gset Path)
    (ps : list Path) :
  Forall is_relative_path ps ->
  NoDup ps ->
  length ps <= MAX_FILES_REQUESTED ->
  (forall p, p ∈ ps -> p ∈ all_files /\ p ∉ shown) ->
  resolve_files_requested all_files (str_of_Path <$> ps) shown ≡ₚ ps.
Proof.
  intros Hrel Hnd Hlen Hfresh.
  assert (Path_of_str <$> (str_of_Path <$> ps) = ps) as Hround.
  { clear Hnd Hlen Hfresh. induction Hrel as [|p ps Hp _ IH]; [reflexivity|].
    simpl. f_equal; [now apply Path_of_str_of_Path | exact IH]. }
  unfold resolve_files_requested. rewrite Hround.
  assert ((all_files ∩ list_to_set ps) ∖ shown = (list_to_set ps : gset Path))
    as ->.
  { apply set_eq. intros p.
    rewrite elem_of_difference, elem_of_intersection, elem_of_list_to_set.
    split; [tauto|]. intros Hp. destruct (Hfresh p Hp). tauto. }
  rewrite take_ge.
  - rewrite sorted_paths_Permutation. now apply elements_list_to_set.
  - rewrite length_sorted_paths, size_list_to_set by exact Hnd. exact Hlen.
Qed.

(** ** Examples of the further properties *)

Lemma scripted_capped_reports_token_counts (script : list Reply) :
  Forall reply_tokens_nonneg script ->
  reports_token_counts (H := scripted_capped script).
Proof.
  intros Hall w fmt key msgs resp u Hc Hu. simpl in Hc.
  assert (reply_tokens_nonneg
            (cap_reply key (nth (length w) script (ReplyVerdict 10 correct))))
    as Hr.
  { assert (reply_tokens_nonneg
              (nth (length w) script (ReplyVerdict 10 correct))) as Hn.
    { destruct (nth_in_or_default (length w) script (ReplyVerdict 10 correct))
        as [Hin | ->]; [|simpl; lia].
      rewrite Forall_forall in Hall. apply Hall. now apply list_elem_of_In. }
    destruct (nth (length w) script (ReplyVerdict 10 correct)),
      key; simpl in *; lia. }
  destruct (cap_reply key (nth (length w) script (ReplyVerdict 10 correct)))
    as [e|t c|t fs]; simpl in Hc, Hr; [discriminate| |].
  - injection Hc as <-. simpl in Hu. injection Hu as <-. exact Hr.
  - injection Hc as <-. simpl in Hu. injection Hu as <-. exact Hr.
Qed.

Lemma scripted_capped_honours_cap (script : list Reply) :
  honours_completion_cap (H := scripted_capped script).
Proof.
  intros w fmt k msgs resp u Hk Hc Hu. simpl in Hc.
  destruct (nth (length w) script (ReplyVerdict 10 correct)) as [e|t c|t fs];
    simpl in Hc; [discriminate| |].
  - injection Hc as <-. simpl in Hu. injection Hu as <-. simpl. lia.
  - injection Hc as <-. simpl in Hu. injection Hu as <-. simpl. lia.
Qed.

(** Three properties, three results, in the order of the properties. *)
Lemma check_proofs_one_result_per_property_witness :
  property_location
    <$> match fst (check_proofs (ext := service_verdict) linter_budgets [])
        with
        | inr results => results
        | inl _ => []
        end
  = _property_locations linter_budgets.
Proof.
  refine (check_proofs_one_result_per_property (ext := service_verdict)
            linter_budgets _ []
            (snd (check_proofs (ext := service_verdict) linter_budgets []))
            _).
  vm_compute. reflexivity.
Defined.

(** Under a ceiling of 1400 the initial message is estimated at 1333 tokens;
    the service is given a cap of 67, uses it, and the verdict costs 1400. *)
Lemma conversation_cost_within_ceiling_witness :
  fst (check_proof (ext := service_capped) linter_full demo_location
         (Some 1400%Z) [])
  = inr (verdict demo_location
           {| correctness := correct; explanation := "checked" |},
         1400%Z)
  /\ (0 <= 1400 <= Z.max 1400 0)%Z.
Proof.
  split; [vm_compute; reflexivity|].
  refine (conversation_cost_within_ceiling (ext := service_capped)
            linter_full demo_location 1400 []
            (verdict demo_location
               {| correctness := correct; explanation := "checked" |})
            1400
            (snd (check_proof (ext := service_capped) linter_full
                    demo_location (Some 1400%Z) []))
            _ _ _).
  - apply scripted_capped_reports_token_counts. repeat constructor; simpl; lia.
  - apply scripted_capped_honours_cap.
  - vm_compute. reflexivity.
Defined.

(** A total of 5000 with a service that uses every cap in full: the three
    properties use 3000, 2000 and nothing, 5000 in all. *)
Lemma run_within_total_budget_witness :
  (0 <= tokens_used
          (run_after (H := service_capped) linter_budgets
             (_property_locations linter_budgets) [])
   <= 5000)%Z.
Proof.
  refine (run_within_total_budget (ext := service_capped) linter_budgets
            (_property_locations linter_budgets) 5000
            (run_after (H := service_capped) linter_budgets
               (_property_locations linter_budgets) [])
            []
            (snd (check_proofs_loop (ext := service_capped) linter_budgets
                    (_property_locations linter_budgets) initial_run []))
            _ _ _ _ _).
  - apply scripted_capped_reports_token_counts. repeat constructor; simpl; lia.
  - apply scripted_capped_honours_cap.
  - reflexivity.
  - lia.
  - vm_compute. reflexivity.
Defined.

(** A ceiling of 5000 and one file-request turn: the caps are 3068 and
    2699. *)
Lemma requests_carry_remaining_budget_witness :
  exists reqs,
    snd (check_proof (ext := service_asks_again) (linter_incremental 50)
           demo_location (Some 5000%Z) [])
    = [] ++ reqs
    /\ Forall (fun r =>
                 exists k,
                   req_max_completion_tokens r = Some k
                   /\ (0 < k)%Z
                   /\ (k + count_input_tokens (ext := service_asks_again)
                             (req_messages r) <= 5000)%Z) reqs.
Proof.
  refine (requests_carry_remaining_budget (ext := service_asks_again)
            (linter_incremental 50) demo_location (Some 5000%Z) [] _).
  apply scripted_reports_token_counts. repeat constructor; simpl; lia.
Defined.

(** The same conversation: two requests, and 600 is below 5000. *)
Lemma calls_bounded_by_ceiling_witness :
  exists reqs,
    snd (check_proof (ext := service_asks_again) (linter_incremental 50)
           demo_location (Some 5000%Z) [])
    = [] ++ reqs
    /\ (reqs = []
        \/ (MESSAGE_ENVELOPE_TOKENS * Z.of_nat (length reqs) < 5000)%Z).
Proof.
  refine (calls_bounded_by_ceiling (ext := service_asks_again)
            (linter_incremental 50) demo_location 5000 [] _).
  apply scripted_reports_token_counts. repeat constructor; simpl; lia.
Defined.

(** Two file-request turns, for [lib/b.py] and then [lib/c.py]. *)
Lemma conversation_transcript_witness :
  exists tr : list (string * list Path),
    length tr = 2
    /\ messages (locals_after (H := service_keeps_asking)
                   (linter_incremental 50) 2 demo_location None [])
       = transcript (H := service_keeps_asking) (linter_incremental 50)
           demo_location tr
    /\ role <$> messages (locals_after (H := service_keeps_asking)
                            (linter_incremental 50) 2 demo_location None [])
       = user :: concat (replicate 2 [assistant; user])
    /\ files_shown (locals_after (H := service_keeps_asking)
                      (linter_incremental 50) 2 demo_location None [])
       = list_to_set (concat (snd <$> tr))
    /\ NoDup (concat (snd <$> tr))
    /\ Forall (fun cd =>
                 1 <= length (snd cd) <= MAX_FILES_REQUESTED
                 /\ forall p, p ∈ snd cd ->
                      p ∈ all_files (linter_incremental 50)) tr.
Proof.
  refine (conversation_transcript (ext := service_keeps_asking)
            (linter_incremental 50) demo_location None 2
            (locals_after (H := service_keeps_asking) (linter_incremental 50)
               2 demo_location None [])
            []
            (world_after (H := service_keeps_asking) (linter_incremental 50)
               2 demo_location None [])
            _).
  vm_compute. reflexivity.
Defined.

(** After those two turns two of the three files are shown. *)
Lemma file_request_turns_bounded_by_files_witness :
  files_shown (locals_after (H := service_keeps_asking)
                 (linter_incremental 50) 2 demo_location None [])
    ⊆ all_files (linter_incremental 50)
  /\ 2 <= size (files_shown (locals_after (H := service_keeps_asking)
                               (linter_incremental 50) 2 demo_location
                               None []))
       <= MAX_FILES_REQUESTED * 2
  /\ 2 <= length (_rel_paths (linter_incremental 50)).
Proof.
  refine (file_request_turns_bounded_by_files (ext := service_keeps_asking)
            (linter_incremental 50) demo_location None 2
            (locals_after (H := service_keeps_asking) (linter_incremental 50)
               2 demo_location None [])
            []
            (world_after (H := service_keeps_asking) (linter_incremental 50)
               2 demo_location None [])
            _).
  vm_compute. reflexivity.
Defined.

(** In full-disclosure mode a reply that is not a verdict has no parsed
    payload, and the conversation raises. *)
Lemma incomplete_completion_aborts_run_witness :
  check_proof (ext := service_asks_again) linter_full demo_location None []
  = (inl (RuntimeError "No response from LLM"),
     [] ++ [request_of (H := service_asks_again) linter_full None
              (initial_locals (ext := service_asks_again) linter_full
                 demo_location)]).
Proof.
  refine (proj1
    (incomplete_completion_aborts_run (ext := service_asks_again)
       linter_full demo_location None 0
       (initial_locals (ext := service_asks_again) linter_full demo_location)
       [] [] None
       (Build_ParsedChatCompletion FullFilesIncludedResponse
          (Some {| completion_tokens := 7 |}) (Some "files") None)
       "No response from LLM" _ _ _ _ _)).
  - vm_compute. lia.
  - reflexivity.
  - reflexivity.
  - reflexivity.
  - right. split; [discriminate|]. split; [now right | reflexivity].
Defined.

(** A connection error at the first call is raised as it is. *)
Lemma uncaught_exception_aborts_run_witness :
  check_proof (ext := service_unreachable) (linter_incremental 50)
    demo_location None []
  = (inl (OtherError "connection reset"),
     [] ++ [request_of (H := service_unreachable) (linter_incremental 50)
              None
              (initial_locals (ext := service_unreachable)
                 (linter_incremental 50) demo_location)]).
Proof.
  refine (proj1
    (uncaught_exception_aborts_run (ext := service_unreachable)
       (linter_incremental 50) demo_location None 0
       (initial_locals (ext := service_unreachable) (linter_incremental 50)
          demo_location)
       [] [] None (OtherError "connection reset") _ _ _ _ _ _)).
  - vm_compute. lia.
  - reflexivity.
  - reflexivity.
  - reflexivity.
  - discriminate.
  - discriminate.
Defined.

(** Three properties and three verdicts "correct": the status is 0. *)
Lemma main_exit_status_witness :
  (0 = 0 \/ 0 = 1)%Z
  /\ ((0 = 0)%Z <->
      forall r,
        r ∈ match fst (check_proofs (ext := service_verdict) linter_full [])
            with
            | inr results => results
            | inl _ => []
            end ->
        exists e, correctness_explanation r
                  = inl {| correctness := correct; explanation := e |})
  /\ exists self,
       Linter_init (ext := service_verdict) demo_paths 50 100000 1000 None
         None None = inr self
       /\ property_location
            <$> match fst (check_proofs (ext := service_verdict)
                             linter_full [])
                with
                | inr results => results
                | inl _ => []
                end
          = _property_locations self.
Proof.
  refine (main_exit_status (ext := service_verdict) demo_paths 1000 50
            100000 None None None _ 0 []
            (snd (check_proofs (ext := service_verdict) linter_full []))
            _).
  vm_compute. reflexivity.
Defined.

(** [lib/b.py] and [a.py], asked for by these names, are resolved (in the
    order of the paths). *)
Lemma listed_names_are_resolved_witness :
  resolve_files_requested (list_to_set demo_paths)
    (str_of_Path <$> [["lib"; "b.py"]; ["a.py"]]) ∅
  ≡ₚ [["lib"; "b.py"]; ["a.py"]].
Proof.
  refine (listed_names_are_resolved (list_to_set demo_paths) ∅
            [["lib"; "b.py"]; ["a.py"]] _ _ _ _).
  - repeat constructor; discriminate.
  - apply NoDup_cons. split; [|apply NoDup_singleton].
    intros Hin. apply list_elem_of_singleton in Hin. discriminate.
  - vm_compute. lia.
  - intros p Hp. split; [|apply not_elem_of_empty].
    apply elem_of_list_to_set. unfold demo_paths.
    apply elem_of_cons in Hp as [-> | Hp]; [set_solver|].
    apply list_elem_of_singleton in Hp as ->. set_solver.
Defined.

(** ** Growth *)

(** X14.  Between two points of a conversation, the earlier after [n]
    file-request turns and the later after [m] more, the set of files shown
    has only grown and the messages have only been added to: the earlier
    messages are the first of the later ones. *)
Theorem files_shown_only_grows `{Externals} (self : Linter)
    (loc : PropertyLocation) (mt : option Z) (n m : nat)
    (st1 st2 : Locals) (w w1 w2 : World) :
  turns self n loc mt (initial_locals self loc) w = (inr (Next st1), w1) ->
  turns self (n + m) loc mt (initial_locals self loc) w
    = (inr (Next st2), w2) ->
  files_shown st1 ⊆ files_shown st2
  /\ messages st1 `prefix_of` messages st2
  /\ w1 `prefix_of` w2.
Proof.
  intros H1 H2. rewrite turns_add, H1 in H2.
  destruct (turns_monotone self loc mt m st1 w1 st2 w2 H2) as (Hsub & tl & Htl).
  split; [exact Hsub|]. split; [now exists tl|].
  clear -H2. revert st1 w1 H2. induction m as [|m IH]; intros st1 w1 H2.
  - simpl in H2. now injection H2 as <- <-.
  - simpl in H2. unfold bind in H2.
    destruct (turn self loc mt st1 w1) as [[e|[pcr t|st]] w'] eqn:E;
      try discriminate.
    apply turn_Next_inv in E
      as (key & _ & _ & _ & _ & _ & _ & _ & _ & _ & _ & _ & _ & -> & _).
    transitivity (w1 ++ [request_of self key st1]);
      [now apply prefix_app_r | exact (IH _ _ H2)].
Qed.

(** From the first to the second file-request turn of the example. *)
Lemma files_shown_only_grows_witness :
  files_shown (locals_after (H := service_keeps_asking)
                 (linter_incremental 50) 1 demo_location None [])
    ⊆ files_shown (locals_after (H := service_keeps_asking)
                     (linter_incremental 50) 2 demo_location None [])
  /\ messages (locals_after (H := service_keeps_asking)
                 (linter_incremental 50) 1 demo_location None [])
       `prefix_of`
     messages (locals_after (H := service_keeps_asking)
                 (linter_incremental 50) 2 demo_location None [])
  /\ world_after (H := service_keeps_asking) (linter_incremental 50) 1
       demo_location None []
       `prefix_of`
     world_after (H := service_keeps_asking) (linter_incremental 50) 2
       demo_location None [].
Proof.
  refine (files_shown_only_grows (H := service_keeps_asking)
            (linter_incremental 50) demo_location None 1 1 _ _ [] _ _ _ _).
  - vm_compute. reflexivity.
  - vm_compute. reflexivity.
Defined.
